(** * virtual-fs: an in-memory filesystem tree with a working directory

    A shallow embedding of [cmd/virtual-fs/main.go].  Go values of the
    interface types [Blob], [File] and [Directory] are pointers to heap
    objects ([&file{...}], [&directory{...}]); the embedding makes that heap
    explicit: an address is an index into a list of objects, allocation
    appends to the list, and [Directory.Add] updates the object in place.
    The two mutexes only serialise concurrent callers and carry no data, so
    they do not appear in the sequential model.  A slice of children is a
    list of references; the slice handed to [CreateDirectory] is taken by
    value, as for the fresh [[]Blob{}] of [ExecuteCommand] (no backing
    array with spare capacity is shared between two directories). *)

From Stdlib Require Import ZArith Ascii String DecimalString.
From Stdlib.Strings Require Import Byte.
From stdpp Require Import base list strings.

Local Open Scope string_scope.
Local Open Scope list_scope.

(** ** Outcomes of a call

    [Ok] is a normal return, [Err] a returned Go [error], and [Panic] a
    nil or dangling dereference.  Go has no dangling pointers, so [Panic]
    only shows up on heaps that no run of the program builds. *)

Inductive result (A : Type) : Type :=
  | Ok (a : A)
  | Err (msg : string)
  | Panic.
Arguments Ok {A} a.
Arguments Err {A} msg.
Arguments Panic {A}.

(** ** The pieces of Go's [strings] and [fmt] packages the program calls *)

Module strings.

(** [strings.HasPrefix(s, prefix)] *)
Definition HasPrefix (s prefix : string) : bool := String.prefix prefix s.

(** [for len(s) > 0 && s[0] == c { s = s[1:] }] *)
Fixpoint trimLeftByte (s : string) (c : ascii) : string :=
  match s with
  | EmptyString => EmptyString
  | String a s' => if Ascii.eqb a c then trimLeftByte s' c else s
  end.

(** [for len(s) > 0 && s[len(s)-1] == c { s = s[:len(s)-1] }] *)
Fixpoint trimRightByte (s : string) (c : ascii) : string :=
  match s with
  | EmptyString => EmptyString
  | String a s' =>
      match trimRightByte s' c with
      | EmptyString => if Ascii.eqb a c then EmptyString else String a EmptyString
      | t => String a t
      end
  end.

(** [strings.Trim(s, cutset)] for a cutset of one ASCII byte, the only
    form the program uses: [trimLeftByte(trimRightByte(s, c), c)]. *)
Definition Trim (s : string) (c : ascii) : string :=
  trimLeftByte (trimRightByte s c) c.

(** [strings.Split(s, sep)] for a separator of one byte: the pieces of
    [s] between consecutive separators; a string without separator
    (the empty one included) gives the single piece [s]. *)
Fixpoint Split (s : string) (sep : ascii) : list string :=
  match s with
  | EmptyString => [EmptyString]
  | String a s' =>
      if Ascii.eqb a sep then EmptyString :: Split s' sep
      else match Split s' sep with
           | piece :: rest => String a piece :: rest
           | [] => [String a EmptyString]
           end
  end.

End strings.

Module fmt.

(** The [%d] verb on a Go [int]. *)
Definition Sprint_d (n : Z) : string := NilZero.string_of_int (Z.to_int n).

(** The escapes [\t] and [\n] of the format strings. *)
Definition tab : string := String "009" EmptyString.
Definition newline : string := String "010" EmptyString.

(** [fmt.Println(s)] and [fmt.Fprintln(w, s)] write [s] and a newline. *)
Definition Println (s : string) : string := s +:+ newline.

(** [fmt.Fprintf(w, "%s\t%s\t%s\n", a, b, c)] *)
Definition Fprintf_row (a b c : string) : string :=
  a +:+ tab +:+ b +:+ tab +:+ c +:+ newline.

(** [fmt.Errorf("the directory '%s' does not exist", path)] *)
Definition Errorf_not_exist (path : string) : string :=
  "the directory '" +:+ path +:+ "' does not exist".

End fmt.

(** ** Data model *)

(** A reference to a heap object; Go's [nil] is [None] in an [option addr]. *)
Abbreviation addr := nat (only parsing).

(** [type file struct].  The [size] field is declared but never assigned:
    [Size] reads the length of [content]. *)
Record file : Type := mkFile {
  file_parent : option addr;
  file_name : string;
  file_content : list byte;
  file_size : Z
}.

(** [type directory struct] *)
Record directory : Type := mkDirectory {
  dir_parent : option addr;
  dir_name : string;
  dir_children : list addr
}.

(** The two implementations of the [Blob] interface. *)
Inductive Blob : Type :=
  | BFile (f : file)
  | BDir (d : directory).

Definition Parent (b : Blob) : option addr :=
  match b with
  | BFile f => file_parent f
  | BDir d => dir_parent d
  end.

Definition Name (b : Blob) : string :=
  match b with
  | BFile f => file_name f
  | BDir d => dir_name d
  end.

Definition Content (f : file) : list byte := file_content f.

Definition Size (f : file) : Z := Z.of_nat (length (file_content f)).

Definition Children (d : directory) : list addr := dir_children d.

(** [type filesystem struct], together with the heap its two references
    point into. *)
Record filesystem : Type := mkFilesystem {
  heap : list Blob;
  tree : addr;
  wd : addr
}.

(** [&T{...}]: a fresh object at the end of the heap. *)
Definition alloc (h : list Blob) (b : Blob) : list Blob * addr :=
  (h ++ [b], length h).

(** The type assertion [child.(Directory)] on the object behind a reference. *)
Definition as_Directory (h : list Blob) (a : addr) : option directory :=
  match h !! a with
  | Some (BDir d) => Some d
  | _ => None
  end.

(** ** Constructors *)

Definition NewFile (h : list Blob) (wd : addr) (name : string) (content : list byte)
  : list Blob * addr * option string :=
  (alloc h (BFile {| file_parent := Some wd; file_name := name;
                     file_content := content; file_size := 0 |}), None).

Definition NewDirectory (h : list Blob) (wd : addr) (name : string) (children : list addr)
  : list Blob * addr * option string :=
  (alloc h (BDir {| dir_parent := Some wd; dir_name := name;
                    dir_children := children |}), None).

Definition NewRoot (h : list Blob) : list Blob * addr :=
  alloc h (BDir {| dir_parent := None; dir_name := ""; dir_children := [] |}).

(** [d.children = append(d.children, child)] on the directory at [d].  The
    children are a list of the directory's own: this is what [append] does
    for a slice that no other directory shares with spare capacity, as for
    every slice of the program ([NewRoot]'s nil, [ExecuteCommand]'s
    [[]Blob{}]).  A slice with spare capacity handed to two
    [CreateDirectory] calls would let an append in one overwrite a child of
    the other; theorems that depend on the children of other directories
    are stated for [program_state]. *)
Definition Add (h : list Blob) (d : addr) (child : addr) : option (list Blob) :=
  match h !! d with
  | Some (BDir dd) =>
      Some (<[d := BDir {| dir_parent := dir_parent dd; dir_name := dir_name dd;
                           dir_children := dir_children dd ++ [child] |}]> h)
  | _ => None
  end.

Definition NewFilesystem : filesystem :=
  let (h, root) := NewRoot [] in
  {| heap := h; tree := root; wd := root |}.

(** ** Operations of the filesystem *)

Definition CreateDirectory (f : filesystem) (name : string) (children : list addr)
  : filesystem * result unit :=
  match NewDirectory (heap f) (wd f) name children with
  | (_, Some err) => (f, Err err)
  | ((h, dir), None) =>
      match Add h (wd f) dir with
      | Some h' => ({| heap := h'; tree := tree f; wd := wd f |}, Ok tt)
      | None => (f, Panic)
      end
  end.

Definition CreateFile (f : filesystem) (name : string) (content : list byte)
  : filesystem * result unit :=
  match NewFile (heap f) (wd f) name content with
  | (_, Some err) => (f, Err err)
  | ((h, file), None) =>
      match Add h (wd f) file with
      | Some h' => ({| heap := h'; tree := tree f; wd := wd f |}, Ok tt)
      | None => (f, Panic)
      end
  end.

(** The loop of [CurrentDirectory].  The source loops until a nil parent;
    [fuel] bounds the number of iterations, and [None] stands for a run
    that printed nothing (fuel exhausted, or a dangling reference). *)
Fixpoint CurrentDirectory_loop (fuel : nat) (h : list Blob) (wd : addr) (path : string)
  : option string :=
  match fuel with
  | 0 => None
  | S fuel' =>
      match h !! wd with
      | None => None
      | Some b =>
          let path := (Name b +:+ "/") +:+ path in
          match Parent b with
          | None => Some path
          | Some wd' => CurrentDirectory_loop fuel' h wd' path
          end
      end
  end.

(** [CurrentDirectory]: the state after the call and the text written to
    standard output. *)
Definition CurrentDirectory (fuel : nat) (f : filesystem) : filesystem * option string :=
  (f, fmt.Println <$> CurrentDirectory_loop fuel (heap f) (wd f) "").

(** The closure [printChilds] of [List]; the result is the sequence of
    rows written to the tab writer.  [fuel] bounds the depth of the
    recursion into sub-directories. *)
Fixpoint printChilds (fuel : nat) (h : list Blob) (dir : addr) (recursive : bool)
    (prefix : string) : option (list string) :=
  match fuel with
  | 0 => None
  | S fuel' =>
      match as_Directory h dir with
      | None => None
      | Some d =>
          (fix each (blobs : list addr) : option (list string) :=
             match blobs with
             | [] => Some []
             | blob :: blobs' =>
                 match h !! blob with
                 | None => None
                 | Some b =>
                     let name := Name b in
                     let name := if decide (prefix <> "")
                                 then (prefix +:+ "/") +:+ name else name in
                     match b with
                     | BFile b =>
                         cons (fmt.Fprintf_row "file"
                                 (fmt.Sprint_d (Z.quot (Size b) 1024) +:+ "kb") name)
                           <$> each blobs'
                     | BDir _ =>
                         let sub := if recursive
                                    then printChilds fuel' h blob recursive name
                                    else Some [] in
                         match sub, each blobs' with
                         | Some inner, Some later =>
                             Some (fmt.Fprintf_row "dir" "-" name :: inner ++ later)
                         | _, _ => None
                         end
                     end
                 end
             end) (Children d)
      end
  end.

(** [fmt.Fprintln(w, "TYPE\tSIZE\tNAME")] *)
Definition List_header : string :=
  fmt.Println ("TYPE" +:+ fmt.tab +:+ "SIZE" +:+ fmt.tab +:+ "NAME").

(** [List]: the state after the call and the lines handed to the tab
    writer, header first. *)
Definition List (fuel : nat) (f : filesystem) (recursive : bool)
  : filesystem * option (list string) :=
  (f, cons List_header <$> printChilds fuel (heap f) (wd f) recursive "").

(** The inner loop of the [default] case: the first child that is a
    Directory named [part]; [Err] when the loop falls through. *)
Fixpoint find_child (h : list Blob) (path : string) (children : list addr) (part : string)
  : result addr :=
  match children with
  | [] => Err (fmt.Errorf_not_exist path)
  | child :: children' =>
      match h !! child with
      | None => Panic
      | Some (BDir v) =>
          if decide (dir_name v = part) then Ok child
          else find_child h path children' part
      | Some (BFile _) => find_child h path children' part
      end
  end.

(** One iteration of [for _, part := range parts]: the [switch]. *)
Definition step_part (h : list Blob) (path : string) (wd : addr) (part : string)
  : result addr :=
  if decide (part = ".") then Ok wd
  else if decide (part = "..") then
    match h !! wd with
    | None => Panic
    | Some b =>
        match Parent b with
        | Some parent => Ok parent
        | None => Ok wd
        end
    end
  else
    match as_Directory h wd with
    | None => Panic
    | Some d => find_child h path (Children d) part
    end.

(** The [for] loop over the parts; an error or panic leaves at once. *)
Fixpoint walk (h : list Blob) (path : string) (wd : addr) (parts : list string)
  : result addr :=
  match parts with
  | [] => Ok wd
  | part :: parts' =>
      match step_part h path wd part with
      | Ok wd' => walk h path wd' parts'
      | Err msg => Err msg
      | Panic => Panic
      end
  end.

Definition ChangeDirectory (f : filesystem) (path : string) : filesystem * result unit :=
  if decide (path = "/") then
    ({| heap := heap f; tree := tree f; wd := tree f |}, Ok tt)
  else
    let wd0 := if strings.HasPrefix path "/" then tree f else wd f in
    let parts := strings.Split (strings.Trim path "/") "/" in
    match walk (heap f) path wd0 parts with
    | Ok wd' => ({| heap := heap f; tree := tree f; wd := wd' |}, Ok tt)
    | Err msg => (f, Err msg)
    | Panic => (f, Panic)
    end.

(** ** Runs of the program *)

Inductive op : Type :=
  | OpCreateFile (name : string) (content : list byte)
  | OpCreateDirectory (name : string) (children : list addr)
  | OpChangeDirectory (path : string)
  | OpCurrentDirectory
  | OpList (recursive : bool).

Definition exec (f : filesystem) (o : op) : filesystem :=
  match o with
  | OpCreateFile name content => fst (CreateFile f name content)
  | OpCreateDirectory name children => fst (CreateDirectory f name children)
  | OpChangeDirectory path => fst (ChangeDirectory f path)
  | OpCurrentDirectory => f
  | OpList _ => f
  end.

(** The children handed to [CreateDirectory] are references to objects
    that exist at the time of the call. *)
Definition admissible (f : filesystem) (o : op) : Prop :=
  match o with
  | OpCreateDirectory _ children => Forall (fun c => c < length (heap f)) children
  | _ => True
  end.

Inductive trace : list op -> filesystem -> Prop :=
  | trace_new : trace [] NewFilesystem
  | trace_call ops f o :
      trace ops f -> admissible f o -> trace (ops ++ [o]) (exec f o).

Definition reachable (f : filesystem) : Prop := exists ops, trace ops f.

Definition run (ops : list op) : filesystem := fold_left exec ops NewFilesystem.

(** ** Predicates and auxiliary functions of the specification *)

(** A child that the scan of the [default] case passes over: a live object
    that is not a Directory named [part]. *)
Definition skipped (h : list Blob) (part : string) (c : addr) : Prop :=
  exists b, h !! c = Some b /\ forall v, b = BDir v -> dir_name v <> part.

(** The root is object 0 and has no parent and the empty name; [wd] is a
    directory; every other object was allocated after its parent, which is
    a directory; children are live references. *)
Record tree_inv (f : filesystem) : Prop := mkTreeInv {
  inv_tree : tree f = 0;
  inv_root : exists cs, heap f !! 0
               = Some (BDir {| dir_parent := None; dir_name := ""; dir_children := cs |});
  inv_wd : exists d, heap f !! wd f = Some (BDir d);
  inv_parent : forall a b, heap f !! a = Some b -> a <> 0 ->
               exists p d, Parent b = Some p /\ p < a /\ heap f !! p = Some (BDir d);
  inv_children : forall a d, heap f !! a = Some (BDir d) ->
               Forall (fun c => c < length (heap f)) (dir_children d)
}.

(** [k] parent links upward from [a]. *)
Fixpoint climb (h : list Blob) (k : nat) (a : addr) : option addr :=
  match k with
  | 0 => Some a
  | S k' =>
      match h !! a with
      | Some b =>
          match Parent b with
          | Some p => climb h k' p
          | None => None
          end
      | None => None
      end
  end.

(** The heap after [wd.Add(new)] where [new] was just allocated. *)
Definition grown (h : list Blob) (w : addr) (d : directory) (nb : Blob) : list Blob :=
  <[w := BDir {| dir_parent := dir_parent d; dir_name := dir_name d;
                 dir_children := dir_children d ++ [length h] |}]> (h ++ [nb]).

(** Runs given as a list of calls. *)
Fixpoint admissible_from (f : filesystem) (ops : list op) : Prop :=
  match ops with
  | [] => True
  | o :: ops' => admissible f o /\ admissible_from (exec f o) ops'
  end.

(** A creation call that was given a non-empty name. *)
Definition named (o : op) : Prop :=
  match o with
  | OpCreateFile name _ => name <> ""
  | OpCreateDirectory name _ => name <> ""
  | _ => True
  end.

(** Every object but the root has a non-empty name. *)
Definition names_inv (f : filesystem) : Prop :=
  forall a b, heap f !! a = Some b -> a <> 0 -> Name b <> "".

(** The row [printChilds] writes for one child when the prefix is empty. *)
Definition flat_row (b : Blob) : string :=
  match b with
  | BFile x =>
      fmt.Fprintf_row "file" (fmt.Sprint_d (Z.quot (Size x) 1024) +:+ "kb") (file_name x)
  | BDir x => fmt.Fprintf_row "dir" "-" (dir_name x)
  end.

Fixpoint flat_rows (h : list Blob) (blobs : list addr) : option (list string) :=
  match blobs with
  | [] => Some []
  | blob :: blobs' =>
      match h !! blob with
      | None => None
      | Some b => cons (flat_row b) <$> flat_rows h blobs'
      end
  end.

(** [contains_byte s c]: the byte [c] occurs in [s]. *)
Fixpoint contains_byte (s : string) (c : ascii) : bool :=
  match s with
  | EmptyString => false
  | String a s' => Ascii.eqb a c || contains_byte s' c
  end.

(** A name that a path can spell: not empty, not [.] or [..], and free of
    slashes. *)
Definition plain (s : string) : Prop :=
  s <> "" /\ s <> "." /\ s <> ".." /\ contains_byte s "/" = false.

(** [seg1/seg2/.../segk/]: what the loop of [CurrentDirectory] has
    prepended below the root. *)
Fixpoint slashed (segs : list string) : string :=
  match segs with
  | [] => ""
  | s :: segs' => s +:+ "/" +:+ slashed segs'
  end.

(** [reached h root d segs]: the parent links from [d] lead to [root], and
    the names met on the way, read from the root downward, are [segs]. *)
Inductive reached (h : list Blob) (root : addr) : addr -> list string -> Prop :=
  | reached_root : reached h root root []
  | reached_child d b p segs :
      h !! d = Some b -> Parent b = Some p ->
      reached h root p segs ->
      reached h root d (segs ++ [Name b]).

(** [canonical h root d segs]: as [reached], and every directory on the way
    has a plain name and is the first Directory of that name among the
    children of its parent. *)
Inductive canonical (h : list Blob) (root : addr) : addr -> list string -> Prop :=
  | canonical_root : canonical h root root []
  | canonical_child d dd p pd segs before after :
      h !! d = Some (BDir dd) -> dir_parent dd = Some p ->
      canonical h root p segs ->
      h !! p = Some (BDir pd) ->
      plain (dir_name dd) ->
      Children pd = before ++ d :: after ->
      Forall (skipped h (dir_name dd)) before ->
      canonical h root d (segs ++ [dir_name dd]).

(** ** The command dispatcher *)

(** What a call leaves on the outside: text printed on standard output,
    and the lines flushed through the tab writer of [List]. *)
Inductive output : Type :=
  | Stdout (text : string)
  | Table (lines : list string).

(** How a call ends: [return err], [os.Exit(code)], a run-time panic, or
    no return at all within the fuel. *)
Inductive ending : Type :=
  | Returned (err : option string)
  | Exited (code : Z)
  | Crashed
  | Stuck.

Definition ending_of (r : result unit) : ending :=
  match r with
  | Ok _ => Returned None
  | Err msg => Returned (Some msg)
  | Panic => Crashed
  end.

(** [for _, opt := range args { if opt == "-r" { recursive = true; break } }] *)
Fixpoint has_recursive_option (args : list string) : bool :=
  match args with
  | [] => false
  | opt :: args' => if decide (opt = "-r") then true else has_recursive_option args'
  end.

(** [ExecuteCommand] on the package variable [fs], passed as a state.
    [args[0]] on an empty slice is an index out of range. *)
Definition ExecuteCommand (fuel : nat) (fs : filesystem) (command : string)
    (args : list string) : filesystem * list output * ending :=
  if decide (command = "touch") then
    match args with
    | [] => (fs, [], Crashed)
    | name :: _ =>
        let (fs', err) := CreateFile fs name [] in (fs', [], ending_of err)
    end
  else if decide (command = "mkdir") then
    match args with
    | [] => (fs, [], Crashed)
    | name :: _ =>
        let (fs', err) := CreateDirectory fs name [] in (fs', [], ending_of err)
    end
  else if decide (command = "ls") then
    match List fuel fs (has_recursive_option args) with
    | (fs', Some lines) => (fs', [Table lines], Returned None)
    | (fs', None) => (fs', [], Stuck)
    end
  else if decide (command = "pwd") then
    match CurrentDirectory fuel fs with
    | (fs', Some text) => (fs', [Stdout text], Returned None)
    | (fs', None) => (fs', [], Stuck)
    end
  else if decide (command = "cd") then
    match args with
    | [] => (fs, [], Crashed)
    | path :: _ =>
        let (fs', err) := ChangeDirectory fs path in (fs', [], ending_of err)
    end
  else if decide (command = "quit") then (fs, [], Exited 0)
  else (fs, [], Returned (Some ("unknown command: " +:+ command))).

(** One turn of the loop of [main], for the line [text] that
    [scanner.Text()] gave: the prompt, the command, the error if any. *)
Definition main_turn (fuel : nat) (fs : filesystem) (text : string)
  : filesystem * list output * ending :=
  if decide (String.length text <> 0) then
    match strings.Split text " " with
    | [] => (fs, [Stdout "> "], Crashed)
    | command :: args =>
        match ExecuteCommand fuel fs command args with
        | (fs', out, Returned (Some err)) =>
            (fs', Stdout "> " :: out ++ [Stdout (fmt.Println err)], Returned None)
        | (fs', out, e) => (fs', Stdout "> " :: out, e)
        end
    end
  else (fs, [Stdout "> "], Returned None).

(** The loop of [main] over the successive lines of [scanner.Text()], up to
    the first turn that does not come back. *)
Fixpoint main_loop (fuel : nat) (fs : filesystem) (texts : list string)
  : filesystem * list output * ending :=
  match texts with
  | [] => (fs, [], Returned None)
  | text :: texts' =>
      match main_turn fuel fs text with
      | (fs', out, Returned _) =>
          let '(fs'', out', e) := main_loop fuel fs' texts' in (fs'', out ++ out', e)
      | stop => stop
      end
  end.

(** ** Further predicates *)

(** A creation call as [ExecuteCommand] makes it: no initial children. *)
Definition childless (o : op) : Prop :=
  match o with
  | OpCreateDirectory _ children => children = []
  | _ => True
  end.

(** A segment as [strings.Split] can give it back: not empty, no slash. *)
Definition segment (s : string) : Prop :=
  s <> "" /\ contains_byte s "/" = false.

(** [seg1/seg2/.../segk], without a slash at either end. *)
Fixpoint joined (segs : list string) : string :=
  match segs with
  | [] => ""
  | [s] => s
  | s :: segs' => s +:+ "/" +:+ joined segs'
  end.

(** Every object is listed among the children of its parent. *)
Definition listed_inv (f : filesystem) : Prop :=
  forall c b p, heap f !! c = Some b -> Parent b = Some p ->
    exists d, heap f !! p = Some (BDir d) /\ c ∈ dir_children d.

(** The children of a directory are distinct and all name it as parent. *)
Definition owned_inv (f : filesystem) : Prop :=
  forall a d, heap f !! a = Some (BDir d) ->
    NoDup (dir_children d)
    /\ forall c, c ∈ dir_children d -> exists b, heap f !! c = Some b /\ Parent b = Some a.

(** The object at [a] after the heap has grown: a directory at [w] has one
    more child, everything else is as it was. *)
Definition bumped (h : list Blob) (w : addr) (a : addr) (b : Blob) : Blob :=
  match b with
  | BFile x => BFile x
  | BDir x =>
      BDir {| dir_parent := dir_parent x; dir_name := dir_name x;
              dir_children := dir_children x
                              ++ (if decide (a = w) then [length h] else []) |}
  end.

(** [ChangeDirectory path] succeeds and moves [wd] to [c]. *)
Definition lands (f : filesystem) (path : string) (c : addr) : Prop :=
  ChangeDirectory f path = ({| heap := heap f; tree := tree f; wd := c |}, Ok tt).

(** A filesystem call as [ExecuteCommand] makes it: a directory without
    initial children, a file without content. *)
Definition dispatched (o : op) : Prop :=
  match o with
  | OpCreateFile _ content => content = []
  | OpCreateDirectory _ children => children = []
  | _ => True
  end.

(** Every file is empty. *)
Definition files_empty (f : filesystem) : Prop :=
  forall a x, heap f !! a = Some (BFile x) -> file_content x = [].

(** A state of the program: what the loop of [main] has built from the
    lines it read.  There every slice of children starts as the nil slice
    of [NewRoot] or a fresh [[]Blob{}] of [ExecuteCommand] and is held by
    one directory only, so that [append] in [Add] never writes into the
    children of another directory. *)
Definition program_state (f : filesystem) : Prop :=
  exists fuel texts, (main_loop fuel NewFilesystem texts).1.1 = f.

(** ** Sample runs *)

(** The README session. *)
Definition demo : filesystem :=
  run [OpCreateDirectory "quz" []; OpChangeDirectory "quz";
       OpCreateDirectory "foo" []; OpChangeDirectory "foo";
       OpCreateFile "test" []].

(** A root holding a file and two directories, all three named [a]. *)
Definition three_a : filesystem :=
  run [OpCreateFile "a" []; OpCreateDirectory "a" []; OpCreateDirectory "a" []].

Example Split_abs : strings.Split (strings.Trim "/quz/foo/" "/") "/" = ["quz"; "foo"].
Proof. reflexivity. Qed.

Example Split_slashes : strings.Split (strings.Trim "//" "/") "/" = [""].
Proof. reflexivity. Qed.

Example Split_inner : strings.Split (strings.Trim "a//b/" "/") "/" = ["a"; ""; "b"].
Proof. reflexivity. Qed.

Example Sprint_d_12 : fmt.Sprint_d 12 = "12".
Proof. reflexivity. Qed.

Example demo_pwd :
  snd (CurrentDirectory 3 demo) = Some (fmt.Println "/quz/foo/").
Proof. reflexivity. Qed.

Example demo_ls :
  snd (List 1 demo false)
  = Some [List_header; fmt.Fprintf_row "file" "0kb" "test"].
Proof. reflexivity. Qed.

Example demo_cd_back :
  wd (fst (ChangeDirectory (fst (ChangeDirectory demo "/")) "quz/foo")) = wd demo.
Proof. reflexivity. Qed.

Example ls_two_kilobytes :
  snd (List 1 (fst (CreateFile NewFilesystem "big" (replicate 2048 x00))) false)
  = Some [List_header; fmt.Fprintf_row "file" "2kb" "big"].
Proof. vm_compute. reflexivity. Qed.

Example ls_recursive :
  snd (List 3 (fst (ChangeDirectory demo "/")) true)
  = Some [List_header; fmt.Fprintf_row "dir" "-" "quz";
          fmt.Fprintf_row "dir" "-" "quz/foo"; fmt.Fprintf_row "file" "0kb" "quz/foo/test"].
Proof. reflexivity. Qed.

Example cd_dotdot_at_root : ChangeDirectory NewFilesystem ".." = (NewFilesystem, Ok tt).
Proof. reflexivity. Qed.

Example demo_cd_missing :
  ChangeDirectory NewFilesystem "nonexistent"
  = (NewFilesystem, Err "the directory 'nonexistent' does not exist").
Proof. reflexivity. Qed.

(** ** Lemmas on the resolution loops *)

Lemma as_Directory_Some h a d : as_Directory h a = Some d <-> h !! a = Some (BDir d).
Proof.
  unfold as_Directory. destruct (h !! a) as [[?|?]|]; split; congruence.
Qed.

Lemma find_child_skip h path part c cs :
  skipped h part c -> find_child h path (c :: cs) part = find_child h path cs part.
Proof.
  intros (b & Hb & Hne). simpl. rewrite Hb. destruct b as [?|v]; [done|].
  destruct (decide (dir_name v = part)) as [E|]; [|done].
  by destruct (Hne v eq_refl).
Qed.

Lemma find_child_first h path part pre c post v :
  Forall (skipped h part) pre ->
  h !! c = Some (BDir v) -> dir_name v = part ->
  find_child h path (pre ++ c :: post) part = Ok c.
Proof.
  intros Hpre Hc Hn. induction Hpre as [|x pre Hx _ IH].
  - simpl. rewrite Hc. by rewrite decide_True.
  - change ((x :: pre) ++ c :: post) with (x :: (pre ++ c :: post)).
    by rewrite find_child_skip.
Qed.

Lemma find_child_none h path part cs :
  Forall (skipped h part) cs -> find_child h path cs part = Err (fmt.Errorf_not_exist path).
Proof.
  induction 1 as [|x cs Hx _ IH]; [done|]. by rewrite find_child_skip.
Qed.

Lemma find_child_Ok h path part cs c :
  find_child h path cs part = Ok c ->
  exists pre post v, cs = pre ++ c :: post /\ h !! c = Some (BDir v)
    /\ dir_name v = part /\ Forall (skipped h part) pre.
Proof.
  induction cs as [|x cs IH]; simpl; [done|].
  destruct (h !! x) as [[fl|v]|] eqn:Hx; [| |done].
  - intros (pre & post & w & -> & ? & ? & ?)%IH.
    exists (x :: pre), post, w. repeat split; try done.
    constructor; [|done]. exists (BFile fl). split; [done|]. congruence.
  - destruct (decide (dir_name v = part)) as [E|NE].
    + intros [= <-]. exists [], cs, v. repeat split; try done.
    + intros (pre & post & w & -> & ? & ? & ?)%IH.
      exists (x :: pre), post, w. repeat split; try done.
      constructor; [|done]. exists (BDir v). split; [done|]. congruence.
Qed.

Lemma step_part_default h path cur d part :
  as_Directory h cur = Some d -> part <> "." -> part <> ".." ->
  step_part h path cur part = find_child h path (Children d) part.
Proof.
  intros Hd H1 H2. unfold step_part.
  rewrite (decide_False _ _ H1), (decide_False _ _ H2). by rewrite Hd.
Qed.

Lemma walk_app h path cur pre post :
  walk h path cur (pre ++ post)
  = match walk h path cur pre with
    | Ok mid => walk h path mid post
    | Err msg => Err msg
    | Panic => Panic
    end.
Proof.
  revert cur. induction pre as [|p pre IH]; intros cur; simpl; [done|].
  destruct (step_part h path cur p); auto.
Qed.

Lemma ChangeDirectory_unfold f path :
  path <> "/" ->
  ChangeDirectory f path
  = match walk (heap f) path (if strings.HasPrefix path "/" then tree f else wd f)
            (strings.Split (strings.Trim path "/") "/") with
    | Ok wd' => ({| heap := heap f; tree := tree f; wd := wd' |}, Ok tt)
    | Err msg => (f, Err msg)
    | Panic => (f, Panic)
    end.
Proof. intros H. unfold ChangeDirectory. by rewrite decide_False. Qed.

Lemma ChangeDirectory_heap f path : heap (fst (ChangeDirectory f path)) = heap f.
Proof.
  unfold ChangeDirectory. destruct (decide (path = "/")); [done|].
  by destruct (walk _ _ _ _).
Qed.

(** ** Navigation: failure atomicity, frame, segment rules *)

(** C1. If [ChangeDirectory path] returns an error, the working directory
    after the call is the one before the call. *)
Theorem ChangeDirectory_failure_atomic (f f' : filesystem) (path msg : string) :
  ChangeDirectory f path = (f', Err msg) -> wd f' = wd f.
Proof.
  unfold ChangeDirectory. destruct (decide (path = "/")); [done|].
  destruct (walk _ _ _ _); intros [= <-]; done.
Qed.

Lemma ChangeDirectory_failure_atomic_witness :
  wd (fst (ChangeDirectory NewFilesystem "nonexistent")) = wd NewFilesystem.
Proof.
  apply (ChangeDirectory_failure_atomic NewFilesystem _ "nonexistent"
           "the directory 'nonexistent' does not exist").
  reflexivity.
Defined.

(** C10. [ChangeDirectory] never modifies the tree: whether it succeeds or
    fails, the heap (every object's name, parent link and children
    sequence) and the root reference are the same after the call; only
    [wd] may differ. *)
Theorem ChangeDirectory_frame (f : filesystem) (path : string) :
  heap (fst (ChangeDirectory f path)) = heap f
  /\ tree (fst (ChangeDirectory f path)) = tree f
  /\ (forall a, Name <$> heap (fst (ChangeDirectory f path)) !! a = Name <$> heap f !! a)
  /\ (forall a, Parent <$> heap (fst (ChangeDirectory f path)) !! a = Parent <$> heap f !! a)
  /\ (forall a, as_Directory (heap (fst (ChangeDirectory f path))) a = as_Directory (heap f) a).
Proof.
  assert (heap (fst (ChangeDirectory f path)) = heap f) as E.
  { unfold ChangeDirectory. destruct (decide (path = "/")); [done|].
    by destruct (walk _ _ _ _). }
  rewrite E. repeat split.
  unfold ChangeDirectory. destruct (decide (path = "/")); [done|].
  by destruct (walk _ _ _ _).
Qed.

Lemma step_part_dotdot h path cur b :
  h !! cur = Some b ->
  step_part h path cur ".."
  = Ok (match Parent b with Some parent => parent | None => cur end).
Proof.
  intros Hcur. unfold step_part. rewrite decide_False by done.
  rewrite decide_True by done. rewrite Hcur. by destruct (Parent b).
Qed.

(** The call seen from one segment of its path: the segments before it
    have led to [cur], the segment leads to [next], the rest is walked
    from there. *)
Lemma ChangeDirectory_at_segment f path before part rest cur next :
  path <> "/" ->
  strings.Split (strings.Trim path "/") "/" = before ++ part :: rest ->
  walk (heap f) path (if strings.HasPrefix path "/" then tree f else wd f) before
  = Ok cur ->
  step_part (heap f) path cur part = Ok next ->
  ChangeDirectory f path
  = match walk (heap f) path next rest with
    | Ok wd' => ({| heap := heap f; tree := tree f; wd := wd' |}, Ok tt)
    | Err msg => (f, Err msg)
    | Panic => (f, Panic)
    end.
Proof.
  intros Hp Hsplit Hbefore Hstep. rewrite ChangeDirectory_unfold by done.
  rewrite Hsplit, walk_app, Hbefore. simpl. by rewrite Hstep.
Qed.

(** C6. A [..] segment moves the traversal pointer to its parent when there
    is one and leaves it in place when there is none: the walk goes on from
    there, [ChangeDirectory] arrives where the rest of the path leads from
    there, and [ChangeDirectory ".."] sets [wd] to the parent of [wd].
    Called while [wd] is the root it succeeds and leaves [wd] equal to
    [tree]. *)
Theorem dotdot_semantics (f : filesystem) (path : string) (cur : addr) (b : Blob)
    (Hcur : heap f !! cur = Some b) :
  (forall parent, Parent b = Some parent ->
     step_part (heap f) path cur ".." = Ok parent
     /\ (forall rest,
           walk (heap f) path cur (".." :: rest) = walk (heap f) path parent rest)
     /\ (forall before rest,
           path <> "/" ->
           strings.Split (strings.Trim path "/") "/" = before ++ ".." :: rest ->
           walk (heap f) path
             (if strings.HasPrefix path "/" then tree f else wd f) before = Ok cur ->
           ChangeDirectory f path
           = match walk (heap f) path parent rest with
             | Ok wd' => ({| heap := heap f; tree := tree f; wd := wd' |}, Ok tt)
             | Err msg => (f, Err msg)
             | Panic => (f, Panic)
             end)
     /\ (cur = wd f ->
         ChangeDirectory f ".."
         = ({| heap := heap f; tree := tree f; wd := parent |}, Ok tt)))
  /\ (Parent b = None ->
      step_part (heap f) path cur ".." = Ok cur
      /\ (forall rest,
            walk (heap f) path cur (".." :: rest) = walk (heap f) path cur rest)
      /\ (forall before rest,
            path <> "/" ->
            strings.Split (strings.Trim path "/") "/" = before ++ ".." :: rest ->
            walk (heap f) path
              (if strings.HasPrefix path "/" then tree f else wd f) before = Ok cur ->
            ChangeDirectory f path
            = match walk (heap f) path cur rest with
              | Ok wd' => ({| heap := heap f; tree := tree f; wd := wd' |}, Ok tt)
              | Err msg => (f, Err msg)
              | Panic => (f, Panic)
              end)
      /\ (cur = wd f ->
          ChangeDirectory f ".."
          = ({| heap := heap f; tree := tree f; wd := wd f |}, Ok tt)))
  /\ (cur = tree f -> wd f = tree f -> Parent b = None ->
      ChangeDirectory f ".." = (f, Ok tt)
      /\ wd (fst (ChangeDirectory f "..")) = tree f).
Proof.
  pose proof (fun p => step_part_dotdot (heap f) p cur b Hcur) as E.
  assert (forall next,
            (match Parent b with Some parent => parent | None => cur end) = next ->
            step_part (heap f) path cur ".." = Ok next
            /\ (forall rest,
                  walk (heap f) path cur (".." :: rest) = walk (heap f) path next rest)
            /\ (forall before rest,
                  path <> "/" ->
                  strings.Split (strings.Trim path "/") "/" = before ++ ".." :: rest ->
                  walk (heap f) path
                    (if strings.HasPrefix path "/" then tree f else wd f) before
                  = Ok cur ->
                  ChangeDirectory f path
                  = match walk (heap f) path next rest with
                    | Ok wd' => ({| heap := heap f; tree := tree f; wd := wd' |}, Ok tt)
                    | Err msg => (f, Err msg)
                    | Panic => (f, Panic)
                    end)
            /\ (cur = wd f ->
                ChangeDirectory f ".."
                = ({| heap := heap f; tree := tree f; wd := next |}, Ok tt))) as Hall.
  { intros next Hnext. rewrite <- Hnext. split; [apply E|]. split; [|split].
    - intros rest. simpl. by rewrite E.
    - intros before rest Hp Hsplit Hbefore.
      by apply (ChangeDirectory_at_segment f path before ".." rest cur).
    - intros ->. rewrite ChangeDirectory_unfold by done. simpl. by rewrite E. }
  split; [|split].
  - intros parent Hp. apply Hall. by rewrite Hp.
  - intros Hp. destruct (Hall cur) as (A & B & C & D); [by rewrite Hp|].
    split; [done|]. split; [done|]. split; [done|].
    intros Hc. rewrite (D Hc). by rewrite Hc.
  - intros -> Hwd Hp.
    assert (ChangeDirectory f ".." = (f, Ok tt)) as R.
    { rewrite ChangeDirectory_unfold by done. simpl.
      rewrite Hwd, E, Hp. destruct f; simpl in *; by subst. }
    by rewrite R.
Qed.

Lemma dotdot_semantics_witness :
  ChangeDirectory demo ".." = ({| heap := heap demo; tree := tree demo; wd := 1 |}, Ok tt)
  /\ ChangeDirectory demo "../.."
     = ({| heap := heap demo; tree := tree demo; wd := 0 |}, Ok tt)
  /\ ChangeDirectory NewFilesystem ".." = (NewFilesystem, Ok tt)
  /\ wd (fst (ChangeDirectory NewFilesystem "..")) = tree NewFilesystem.
Proof.
  assert ("../.." <> "/") as Hne by discriminate.
  split; [|split].
  - exact (proj2 (proj2 (proj2
      (proj1 (dotdot_semantics demo ".." 2
                (BDir {| dir_parent := Some 1; dir_name := "foo"; dir_children := [3] |})
                eq_refl) 1 eq_refl))) eq_refl).
  - exact (proj1 (proj2 (proj2
      (proj1 (dotdot_semantics demo "../.." 2
                (BDir {| dir_parent := Some 1; dir_name := "foo"; dir_children := [3] |})
                eq_refl) 1 eq_refl))) [] [".."] Hne eq_refl eq_refl).
  - apply (dotdot_semantics NewFilesystem ".." 0
             (BDir {| dir_parent := None; dir_name := ""; dir_children := [] |}));
      reflexivity.
Defined.

(** C2. A segment other than [.] and [..] resolves to the first child, in
    insertion order, that is a Directory of that name: the walk goes on
    from that child, and [ChangeDirectory] arrives where the rest of the
    path leads from it (at the child itself when the segment is the last).
    Whatever a segment resolves to is a Directory (files are passed over);
    and when no child matches, the walk stops with an error whatever
    segments follow, and so does the whole [ChangeDirectory] call. *)
Theorem segment_resolution (f : filesystem) (path : string) (cur : addr) (d : directory)
    (part : string)
    (Hcur : as_Directory (heap f) cur = Some d)
    (Hdot : part <> ".") (Hdotdot : part <> "..") :
  (forall pre c post v,
     Children d = pre ++ c :: post ->
     Forall (skipped (heap f) part) pre ->
     heap f !! c = Some (BDir v) -> dir_name v = part ->
     step_part (heap f) path cur part = Ok c
     /\ (forall rest,
           walk (heap f) path cur (part :: rest) = walk (heap f) path c rest)
     /\ (forall before rest,
           path <> "/" ->
           strings.Split (strings.Trim path "/") "/" = before ++ part :: rest ->
           walk (heap f) path
             (if strings.HasPrefix path "/" then tree f else wd f) before = Ok cur ->
           ChangeDirectory f path
           = match walk (heap f) path c rest with
             | Ok wd' => ({| heap := heap f; tree := tree f; wd := wd' |}, Ok tt)
             | Err msg => (f, Err msg)
             | Panic => (f, Panic)
             end)
     /\ (forall before,
           path <> "/" ->
           strings.Split (strings.Trim path "/") "/" = before ++ [part] ->
           walk (heap f) path
             (if strings.HasPrefix path "/" then tree f else wd f) before = Ok cur ->
           ChangeDirectory f path
           = ({| heap := heap f; tree := tree f; wd := c |}, Ok tt)))
  /\ (forall c, step_part (heap f) path cur part = Ok c ->
        exists pre post v, Children d = pre ++ c :: post
          /\ Forall (skipped (heap f) part) pre
          /\ heap f !! c = Some (BDir v) /\ dir_name v = part)
  /\ (Forall (skipped (heap f) part) (Children d) ->
        (forall rest, walk (heap f) path cur (part :: rest)
                      = Err (fmt.Errorf_not_exist path))
        /\ (forall before rest,
              path <> "/" ->
              strings.Split (strings.Trim path "/") "/" = before ++ part :: rest ->
              walk (heap f) path
                (if strings.HasPrefix path "/" then tree f else wd f) before = Ok cur ->
              ChangeDirectory f path = (f, Err (fmt.Errorf_not_exist path)))).
Proof.
  pose proof (step_part_default (heap f) path cur d part Hcur Hdot Hdotdot) as E.
  split; [|split].
  - intros pre c post v Hch Hpre Hc Hn.
    assert (step_part (heap f) path cur part = Ok c) as Hstep.
    { rewrite E, Hch. by apply find_child_first with v. }
    split; [done|]. split; [|split].
    + intros rest. simpl. by rewrite Hstep.
    + intros before rest Hp Hsplit Hbefore.
      by apply (ChangeDirectory_at_segment f path before part rest cur).
    + intros before Hp Hsplit Hbefore.
      by rewrite (ChangeDirectory_at_segment f path before part [] cur c).
  - intros c Hc. rewrite E in Hc.
    apply find_child_Ok in Hc as (pre & post & v & ? & ? & ? & ?).
    by exists pre, post, v.
  - intros Hnone.
    assert (forall rest, walk (heap f) path cur (part :: rest)
                         = Err (fmt.Errorf_not_exist path)) as W.
    { intros rest. simpl. by rewrite E, find_child_none. }
    split; [done|].
    intros before rest Hp Hsplit Hwalk.
    rewrite ChangeDirectory_unfold by done.
    by rewrite Hsplit, walk_app, Hwalk, W.
Qed.

Lemma segment_resolution_witness :
  step_part (heap three_a) "a" 0 "a" = Ok 2
  /\ ChangeDirectory three_a "a"
     = ({| heap := heap three_a; tree := tree three_a; wd := 2 |}, Ok tt).
Proof.
  assert ("a" <> ".") as H1 by discriminate.
  assert ("a" <> "..") as H2 by discriminate.
  assert ("a" <> "/") as H3 by discriminate.
  destruct (segment_resolution three_a "a" 0
              {| dir_parent := None; dir_name := ""; dir_children := [1; 2; 3] |}
              "a" eq_refl H1 H2) as [Hfirst _].
  assert (Forall (skipped (heap three_a) "a") [1]) as Hskip.
  { constructor; [|constructor]. eexists. split; [reflexivity|]. discriminate. }
  destruct (Hfirst [1] 2 [3] {| dir_parent := Some 0; dir_name := "a"; dir_children := [] |}
              eq_refl Hskip eq_refl eq_refl) as (Hstep & _ & _ & Hlast).
  split; [exact Hstep|].
  exact (Hlast [] H3 eq_refl eq_refl).
Defined.

(** ** The shape of the heap in every run *)

Lemma Add_alloc h w d nb :
  h !! w = Some (BDir d) -> Add (h ++ [nb]) w (length h) = Some (grown h w d nb).
Proof.
  intros Hw. unfold Add, grown. by rewrite lookup_app_l_Some with (x := BDir d).
Qed.

Lemma CreateFile_grown f name content d :
  heap f !! wd f = Some (BDir d) ->
  CreateFile f name content
  = ({| heap := grown (heap f) (wd f) d
                  (BFile {| file_parent := Some (wd f); file_name := name;
                            file_content := content; file_size := 0 |});
        tree := tree f; wd := wd f |}, Ok tt).
Proof.
  intros Hw. unfold CreateFile, NewFile, alloc. by rewrite (Add_alloc _ _ d).
Qed.

Lemma CreateDirectory_grown f name children d :
  heap f !! wd f = Some (BDir d) ->
  CreateDirectory f name children
  = ({| heap := grown (heap f) (wd f) d
                  (BDir {| dir_parent := Some (wd f); dir_name := name;
                           dir_children := children |});
        tree := tree f; wd := wd f |}, Ok tt).
Proof.
  intros Hw. unfold CreateDirectory, NewDirectory, alloc. by rewrite (Add_alloc _ _ d).
Qed.

Lemma length_grown h w d nb : length (grown h w d nb) = S (length h).
Proof. unfold grown. rewrite length_insert, length_app. simpl. lia. Qed.

Lemma grown_lookup_wd h w d nb :
  h !! w = Some (BDir d) ->
  grown h w d nb !! w
  = Some (BDir {| dir_parent := dir_parent d; dir_name := dir_name d;
                  dir_children := dir_children d ++ [length h] |}).
Proof.
  intros Hw. unfold grown. apply list_lookup_insert_eq.
  rewrite length_app. apply lookup_lt_Some in Hw. lia.
Qed.

Lemma grown_lookup_new h w d nb :
  h !! w = Some (BDir d) -> grown h w d nb !! length h = Some nb.
Proof.
  intros Hw. unfold grown. apply lookup_lt_Some in Hw.
  rewrite list_lookup_insert_ne by lia.
  rewrite lookup_app_r by lia. by rewrite Nat.sub_diag.
Qed.

Lemma grown_lookup_old h w d nb a :
  a <> w -> a < length h -> grown h w d nb !! a = h !! a.
Proof.
  intros Hne Hlt. unfold grown. rewrite list_lookup_insert_ne by done.
  by rewrite lookup_app_l.
Qed.

(** Every object of the grown heap: the new one, or an old one with the
    same parent and name and the same kind. *)
Lemma grown_lookup_inv h w d nb a b :
  h !! w = Some (BDir d) ->
  grown h w d nb !! a = Some b ->
  (a = length h /\ b = nb)
  \/ (a < length h /\ exists b0, h !! a = Some b0 /\ Parent b = Parent b0
        /\ Name b = Name b0
        /\ ((exists x, b = BFile x /\ b0 = BFile x)
            \/ (exists x x0, b = BDir x /\ b0 = BDir x0
                  /\ (dir_children x = dir_children x0
                      \/ dir_children x = dir_children x0 ++ [length h])))).
Proof.
  intros Hw Hb.
  assert (a < S (length h)) as Hlt.
  { rewrite <- (length_grown h w d nb). by apply lookup_lt_Some in Hb. }
  destruct (decide (a = length h)) as [->|Hne].
  { left. rewrite (grown_lookup_new h w d nb Hw) in Hb. by inversion Hb. }
  right. split; [lia|].
  destruct (decide (a = w)) as [Haw|Hnw].
  - subst a. rewrite (grown_lookup_wd h w d nb Hw) in Hb. inversion Hb; subst.
    exists (BDir d). repeat split; try done. right. eexists _, _.
    split; [done|]. split; [done|]. by right.
  - rewrite grown_lookup_old in Hb by (done || lia).
    exists b. repeat split; try done.
    destruct b as [x|x]; [left; by exists x | right; exists x, x; auto].
Qed.

Lemma grown_is_dir h w d nb a x :
  h !! w = Some (BDir d) -> h !! a = Some (BDir x) ->
  exists x', grown h w d nb !! a = Some (BDir x').
Proof.
  intros Hw Ha. destruct (decide (a = w)) as [Haw|Hne].
  - subst a. rewrite (grown_lookup_wd h w d nb Hw). eauto.
  - rewrite grown_lookup_old; eauto. by apply lookup_lt_Some in Ha.
Qed.

Lemma tree_inv_new : tree_inv NewFilesystem.
Proof.
  split; simpl.
  - done.
  - by exists [].
  - eauto.
  - intros [|a] b Hb Hne; [done|]. by destruct a.
  - intros [|[|a]] d [= <-]. constructor.
Qed.

Lemma tree_inv_grown f d nb :
  tree_inv f ->
  heap f !! wd f = Some (BDir d) ->
  Parent nb = Some (wd f) ->
  (forall x, nb = BDir x -> Forall (fun c => c < length (heap f)) (dir_children x)) ->
  tree_inv {| heap := grown (heap f) (wd f) d nb; tree := tree f; wd := wd f |}.
Proof.
  intros [Ht [cs Hr] _ Hp Hc] Hw Hnb Hch.
  assert (wd f < length (heap f)) as Hlt by (by apply lookup_lt_Some in Hw).
  split; simpl.
  - done.
  - destruct (decide (wd f = 0)) as [E|NE].
    + rewrite <- E. rewrite (grown_lookup_wd _ _ _ nb Hw).
      rewrite E, Hr in Hw. inversion Hw; subst d. simpl. eauto.
    + rewrite grown_lookup_old by (done || lia). eauto.
  - rewrite (grown_lookup_wd _ _ _ nb Hw). eauto.
  - intros a b Hb Hne.
    destruct (grown_lookup_inv _ _ _ _ _ _ Hw Hb)
      as [[-> ->]|(Ha & b0 & Hb0 & HP & _)].
    + destruct (grown_is_dir (heap f) (wd f) d nb (wd f) d Hw Hw) as [x' Hx'].
      exists (wd f), x'. done.
    + destruct (Hp a b0 Hb0 Hne) as (p & pd & Hpar & Hlt' & Hpd).
      destruct (grown_is_dir (heap f) (wd f) d nb p pd Hw Hpd) as [x' Hx'].
      exists p, x'. rewrite HP. done.
  - intros a x Hx. rewrite length_grown.
    destruct (grown_lookup_inv _ _ _ _ _ _ Hw Hx)
      as [[-> <-]|(Ha & b0 & Hb0 & _ & _ & [(y & ? & _)|(y & y0 & Hy & -> & Hcs)])].
    + eapply Forall_impl; [by apply Hch|]. simpl. lia.
    + done.
    + inversion Hy; subst y. apply Hc in Hb0.
      destruct Hcs as [->| ->].
      * eapply Forall_impl; [done|]. simpl. lia.
      * apply Forall_app. split.
        -- eapply Forall_impl; [done|]. simpl. lia.
        -- repeat constructor.
Qed.

Lemma step_part_dir f path cur part c :
  tree_inv f ->
  (exists d, heap f !! cur = Some (BDir d)) ->
  step_part (heap f) path cur part = Ok c ->
  exists d, heap f !! c = Some (BDir d).
Proof.
  intros Hinv [d Hd]. unfold step_part.
  destruct (decide (part = ".")); [intros [= <-]; eauto|].
  destruct (decide (part = "..")).
  - rewrite Hd. simpl. destruct (dir_parent d) as [p|] eqn:Hp; intros [= <-]; [|eauto].
    destruct (decide (cur = 0)) as [->|NE].
    + destruct (inv_root f Hinv) as [cs Hr]. rewrite Hr in Hd.
      inversion Hd; subst d. done.
    + destruct (inv_parent f Hinv cur _ Hd NE) as (p' & pd & Hpar & _ & Hpd).
      simpl in Hpar. rewrite Hp in Hpar. inversion Hpar; subst. eauto.
  - unfold as_Directory. rewrite Hd.
    intros (_ & _ & v & _ & Hv & _)%find_child_Ok. eauto.
Qed.

Lemma walk_dir f path parts : forall cur c,
  tree_inv f ->
  (exists d, heap f !! cur = Some (BDir d)) ->
  walk (heap f) path cur parts = Ok c ->
  exists d, heap f !! c = Some (BDir d).
Proof.
  induction parts as [|p parts IH]; intros cur c Hinv Hd; simpl.
  - by intros [= <-].
  - destruct (step_part (heap f) path cur p) as [mid| |] eqn:Hs; [|done..].
    apply IH; [done|]. by eapply step_part_dir.
Qed.

(** On the heap of a run no dereference of the walk goes wrong. *)
Lemma find_child_no_panic h path part cs :
  Forall (fun c => c < length h) cs -> find_child h path cs part <> Panic.
Proof.
  induction 1 as [|c cs Hc _ IH]; simpl; [done|].
  destruct (lookup_lt_is_Some_2 _ _ Hc) as [b ->].
  destruct b as [x|v]; [done|]. by destruct (decide (dir_name v = part)).
Qed.

Lemma walk_no_panic f path parts : forall cur,
  tree_inv f ->
  (exists d, heap f !! cur = Some (BDir d)) ->
  walk (heap f) path cur parts <> Panic.
Proof.
  induction parts as [|p parts IH]; intros cur Hinv Hd; simpl; [done|].
  destruct (step_part (heap f) path cur p) as [mid| |] eqn:Hs; [|done|].
  - apply IH; [done|]. by eapply step_part_dir.
  - exfalso. destruct Hd as [d Hd]. revert Hs. unfold step_part, as_Directory.
    rewrite Hd. repeat case_decide; [done|by destruct (Parent _)|].
    apply find_child_no_panic. by apply (inv_children f Hinv cur).
Qed.

Lemma ChangeDirectory_no_panic f path :
  tree_inv f -> snd (ChangeDirectory f path) <> Panic.
Proof.
  intros Hinv. unfold ChangeDirectory. destruct (decide (path = "/")); [done|].
  assert (exists d, heap f !! (if strings.HasPrefix path "/" then tree f else wd f)
                    = Some (BDir d)) as Hstart.
  { destruct (inv_root f Hinv) as [cs Hr].
    destruct (strings.HasPrefix path "/"); [|apply (inv_wd f Hinv)].
    rewrite (inv_tree f Hinv). eauto. }
  pose proof (walk_no_panic f path (strings.Split (strings.Trim path "/") "/") _
                Hinv Hstart) as Hnp.
  by destruct (walk _ _ _ _).
Qed.

Lemma tree_inv_ChangeDirectory f path :
  tree_inv f -> tree_inv (fst (ChangeDirectory f path)).
Proof.
  intros Hinv. destruct (Hinv) as [Ht Hr Hw Hp Hc].
  unfold ChangeDirectory. destruct (decide (path = "/")).
  { split; simpl; try done. rewrite Ht. destruct Hr as [cs Hr]. eauto. }
  destruct (walk _ _ _ _) as [c| |] eqn:Hwalk; simpl; [|done..].
  split; simpl; try done.
  eapply walk_dir; [done| |exact Hwalk].
  destruct (strings.HasPrefix path "/"); [|done].
  rewrite Ht. destruct Hr as [cs Hr]. eauto.
Qed.

Lemma tree_inv_exec f o : tree_inv f -> admissible f o -> tree_inv (exec f o).
Proof.
  intros Hinv Hadm. destruct (inv_wd f Hinv) as [d Hd].
  destruct o as [name content|name children|path| |]; simpl; try done.
  - rewrite (CreateFile_grown f name content d Hd). simpl.
    by apply tree_inv_grown.
  - rewrite (CreateDirectory_grown f name children d Hd). simpl.
    apply tree_inv_grown; try done. by intros x [= <-].
  - by apply tree_inv_ChangeDirectory.
Qed.

Lemma trace_tree_inv ops f : trace ops f -> tree_inv f.
Proof.
  induction 1; [apply tree_inv_new | by apply tree_inv_exec].
Qed.

Lemma climb_root f :
  tree_inv f -> forall a, a < length (heap f) -> exists k, climb (heap f) k a = Some 0.
Proof.
  intros Hinv a. induction (lt_wf a) as [a _ IH]. intros Ha.
  destruct (decide (a = 0)) as [->|NE]; [by exists 0|].
  destruct (lookup_lt_is_Some_2 _ _ Ha) as [b Hb].
  destruct (inv_parent f Hinv a b Hb NE) as (p & pd & Hpar & Hlt & Hpd).
  destruct (IH p Hlt) as [k Hk]; [by apply lookup_lt_Some in Hpd|].
  exists (S k). simpl. by rewrite Hb, Hpar.
Qed.

Lemma trace_extend ops : forall pre f,
  trace pre f -> admissible_from f ops -> trace (pre ++ ops) (fold_left exec ops f).
Proof.
  induction ops as [|o ops IH]; intros pre f Ht Ha; simpl.
  - by rewrite app_nil_r.
  - destruct Ha as [Ho Ha].
    replace (pre ++ o :: ops) with ((pre ++ [o]) ++ ops) by (by rewrite <- app_assoc).
    apply IH; [|done]. by constructor.
Qed.

Lemma trace_run ops : admissible_from NewFilesystem ops -> trace ops (run ops).
Proof. intros Ha. apply (trace_extend ops [] NewFilesystem); [constructor|done]. Qed.

(** ** Invariants of the working directory and of names *)

(** C4. In every state reached from [NewFilesystem] by calls of
    [CreateFile], [CreateDirectory], [ChangeDirectory], [CurrentDirectory]
    and [List], [wd] refers to a Directory, and following parent links
    upward from [wd] arrives at [tree]. *)
Theorem wd_invariant (f : filesystem) :
  reachable f ->
  (exists d, heap f !! wd f = Some (BDir d))
  /\ (exists k, climb (heap f) k (wd f) = Some (tree f)).
Proof.
  intros [ops Ht]. pose proof (trace_tree_inv ops f Ht) as Hinv.
  destruct (inv_wd f Hinv) as [d Hd]. split; [eauto|].
  rewrite (inv_tree f Hinv). apply climb_root; [done|].
  by apply lookup_lt_Some in Hd.
Qed.

Lemma wd_invariant_witness :
  (exists d, heap demo !! wd demo = Some (BDir d))
  /\ (exists k, climb (heap demo) k (wd demo) = Some (tree demo)).
Proof.
  apply (wd_invariant demo).
  eexists. apply trace_run. simpl. repeat split; constructor.
Defined.

Lemma names_inv_exec f o :
  tree_inv f -> names_inv f -> named o -> names_inv (exec f o).
Proof.
  intros Hinv Hn Ho. destruct (inv_wd f Hinv) as [d Hd].
  assert (forall nb, Name nb <> "" ->
            names_inv {| heap := grown (heap f) (wd f) d nb; tree := tree f; wd := wd f |})
    as Hgrow.
  { intros nb Hnb a b Hb Hne. simpl in Hb.
    destruct (grown_lookup_inv _ _ _ _ _ _ Hd Hb)
      as [[-> ->]|(Ha & b0 & Hb0 & _ & HN & _)]; [done|].
    rewrite HN. by apply (Hn a). }
  destruct o as [name content|name children|path| |]; simpl; try done.
  - rewrite (CreateFile_grown f name content d Hd). by apply Hgrow.
  - rewrite (CreateDirectory_grown f name children d Hd). by apply Hgrow.
  - intros a b. rewrite (ChangeDirectory_heap f path). apply Hn.
Qed.

Lemma trace_names_inv ops f : trace ops f -> Forall named ops -> names_inv f.
Proof.
  induction 1 as [|ops f o Ht IH Ha].
  - intros _ [|a] b Hb Hne; [done|]. by destruct a.
  - intros [Hops Ho]%Forall_app. apply names_inv_exec.
    + by apply trace_tree_inv with ops.
    + by apply IH.
    + by inversion Ho.
Qed.

(** C5, as stated, fails: nothing checks the name, so [CreateFile ""]
    from a fresh filesystem leaves a file with the empty name next to the
    root. *)
Lemma empty_name_not_only_root :
  let f := fst (CreateFile NewFilesystem "" []) in
  reachable f
  /\ heap f !! 1 = Some (BFile {| file_parent := Some 0; file_name := "";
                                  file_content := []; file_size := 0 |})
  /\ Name (BFile {| file_parent := Some 0; file_name := "";
                    file_content := []; file_size := 0 |}) = ""
  /\ 1 <> tree f.
Proof.
  simpl. split; [|by repeat split].
  exists [OpCreateFile "" []]. apply trace_run. by simpl.
Qed.

(** C5, amended. The root has the empty name, and in a state reached by
    calls that all pass a non-empty name to [CreateFile] and
    [CreateDirectory], the name of an object is empty only for the root. *)
Theorem empty_name_only_root (ops : list op) (f : filesystem) :
  trace ops f -> Forall named ops ->
  forall a b, heap f !! a = Some b -> (Name b = "" <-> a = tree f).
Proof.
  intros Ht Hn a b Hb.
  pose proof (trace_tree_inv ops f Ht) as Hinv.
  pose proof (trace_names_inv ops f Ht Hn) as Hnames.
  rewrite (inv_tree f Hinv). split.
  - intros HN. destruct (decide (a = 0)) as [|NE]; [done|].
    by destruct (Hnames a b Hb NE).
  - intros ->. destruct (inv_root f Hinv) as [cs Hr].
    rewrite Hr in Hb. by inversion Hb.
Qed.

Lemma empty_name_only_root_witness :
  Name (BDir {| dir_parent := Some 0; dir_name := "quz"; dir_children := [2] |}) = ""
  <-> 1 = tree demo.
Proof.
  apply (empty_name_only_root
           [OpCreateDirectory "quz" []; OpChangeDirectory "quz";
            OpCreateDirectory "foo" []; OpChangeDirectory "foo";
            OpCreateFile "test" []] demo).
  - apply trace_run. simpl. repeat split; constructor.
  - repeat constructor; discriminate.
  - reflexivity.
Defined.

(** ** Paths made of slashes only *)

(** C9, as stated, fails: after [CreateDirectory ""] the root has a child
    Directory with the empty name, the single empty segment of [//]
    matches it, and the call succeeds and moves [wd] there. *)
Lemma all_slash_path_succeeds :
  let f := fst (CreateDirectory NewFilesystem "" []) in
  reachable f
  /\ strings.Trim "//" "/" = ""
  /\ "//" <> "/"
  /\ strings.Split (strings.Trim "//" "/") "/" = [""]
  /\ ChangeDirectory f "//" = ({| heap := heap f; tree := 0; wd := 1 |}, Ok tt).
Proof.
  simpl. split; [|by repeat split].
  exists [OpCreateDirectory "" []]. apply trace_run. simpl. repeat constructor.
Qed.

(** C9, amended. A path other than [/] whose remainder after stripping
    slashes is empty yields the single empty segment, and
    [ChangeDirectory] returns an error on it whenever the directory the
    walk starts from ([tree] for a path that begins with a slash, [wd]
    otherwise) has no child Directory with the empty name. *)
Theorem all_slash_path_fails (f : filesystem) (path : string) (d : directory)
    (Htrim : strings.Trim path "/" = "")
    (Hpath : path <> "/")
    (Hstart : as_Directory (heap f)
                (if strings.HasPrefix path "/" then tree f else wd f) = Some d)
    (Hnone : Forall (skipped (heap f) "") (Children d)) :
  strings.Split (strings.Trim path "/") "/" = [""]
  /\ ChangeDirectory f path = (f, Err (fmt.Errorf_not_exist path)).
Proof.
  rewrite ChangeDirectory_unfold by done. rewrite Htrim. split; [done|].
  simpl. rewrite (step_part_default _ _ _ d) by done.
  by rewrite find_child_none.
Qed.

Lemma all_slash_path_fails_witness :
  strings.Split (strings.Trim "//" "/") "/" = [""]
  /\ ChangeDirectory demo "//" = (demo, Err "the directory '//' does not exist").
Proof.
  assert ("//" <> "/") as Hne by discriminate.
  apply (all_slash_path_fails demo "//"
           {| dir_parent := None; dir_name := ""; dir_children := [1] |}
           eq_refl Hne eq_refl).
  constructor; [|constructor].
  eexists. split; [reflexivity|]. intros v [= <-]. discriminate.
Defined.

(** ** Listing *)

Lemma printChilds_flat fuel h dir d :
  as_Directory h dir = Some d ->
  printChilds (S fuel) h dir false "" = flat_rows h (Children d).
Proof.
  intros Hd. simpl. rewrite Hd. generalize (Children d) as cs.
  induction cs as [|c cs IH]; [done|].
  simpl. destruct (h !! c) as [[x|x]|]; [| |done].
  - by rewrite IH.
  - rewrite IH. by destruct (flat_rows h cs).
Qed.

Lemma flat_rows_total h cs :
  Forall (fun c => c < length h) cs -> exists rows, flat_rows h cs = Some rows.
Proof.
  induction 1 as [|c cs Hc _ [rows IH]]; simpl; [eauto|].
  destruct (lookup_lt_is_Some_2 _ _ Hc) as [b ->]. rewrite IH. simpl. eauto.
Qed.

Lemma flat_rows_snoc h cs c rows b :
  flat_rows h cs = Some rows -> h !! c = Some b ->
  flat_rows h (cs ++ [c]) = Some (rows ++ [flat_row b]).
Proof.
  revert rows. induction cs as [|x cs IH]; intros rows; simpl.
  - intros [= <-] ->. done.
  - destruct (h !! x) as [bx|]; [|done].
    destruct (flat_rows h cs) as [rs|]; [|done]. simpl.
    intros [= <-] Hc. by rewrite (IH rs eq_refl Hc).
Qed.

(** C8. [CreateFile n c] followed at once by [List false] emits, after the
    header and the rows of the earlier children, a row of kind [file] with
    name [n] and size [len(c)/1024] followed by [kb]; for a payload under
    1024 bytes that size reads [0kb]. *)
Theorem CreateFile_then_List (f : filesystem) (n : string) (c : list byte) (fuel : nat) :
  reachable f -> n <> "" ->
  snd (CreateFile f n c) = Ok tt
  /\ (exists rows,
        List (S fuel) (fst (CreateFile f n c)) false
        = (fst (CreateFile f n c),
           Some (List_header
                 :: rows ++ [fmt.Fprintf_row "file"
                               (fmt.Sprint_d (Z.quot (Z.of_nat (length c)) 1024) +:+ "kb")
                               n])))
  /\ (length c < 1024 ->
      fmt.Sprint_d (Z.quot (Z.of_nat (length c)) 1024) +:+ "kb" = "0kb").
Proof.
  intros [ops Ht] _. pose proof (trace_tree_inv ops f Ht) as Hinv.
  destruct (inv_wd f Hinv) as [d Hd].
  rewrite (CreateFile_grown f n c d Hd). simpl.
  split; [done|]. split.
  - set (nb := BFile {| file_parent := Some (wd f); file_name := n;
                        file_content := c; file_size := 0 |}).
    set (h' := grown (heap f) (wd f) d nb).
    destruct (flat_rows_total h' (dir_children d)) as [rows Hrows].
    { unfold h'. rewrite length_grown.
      eapply Forall_impl; [exact (inv_children f Hinv _ _ Hd)|]. simpl. lia. }
    exists rows. unfold List. simpl heap. simpl wd. f_equal.
    rewrite (printChilds_flat fuel h' (wd f)
               {| dir_parent := dir_parent d; dir_name := dir_name d;
                  dir_children := dir_children d ++ [length (heap f)] |}).
    + unfold Children. simpl dir_children.
      rewrite (flat_rows_snoc h' _ _ rows nb Hrows); [done|].
      by apply grown_lookup_new.
    + apply as_Directory_Some. by apply grown_lookup_wd.
  - intros Hlt. rewrite Z.quot_small by lia. done.
Qed.

Lemma CreateFile_then_List_witness :
  exists rows,
    List 1 (fst (CreateFile NewFilesystem "test" [x00; x01])) false
    = (fst (CreateFile NewFilesystem "test" [x00; x01]),
       Some (List_header
             :: rows ++ [fmt.Fprintf_row "file"
                           (fmt.Sprint_d (Z.quot (Z.of_nat (length [x00; x01])) 1024) +:+ "kb")
                           "test"])).
Proof.
  assert ("test" <> "") as Hne by discriminate.
  assert (reachable NewFilesystem) as Hr by (exists []; constructor).
  exact (proj1 (proj2 (CreateFile_then_List NewFilesystem "test" [x00; x01] 0 Hr Hne))).
Defined.

(** ** Strings: appending, trimming and splitting *)

Lemma app_cons a s t : String a s +:+ t = String a (s +:+ t).
Proof. reflexivity. Qed.

Lemma app_empty_l t : "" +:+ t = t.
Proof. reflexivity. Qed.

Lemma app_empty_r s : s +:+ "" = s.
Proof. induction s as [|a s IH]; [done|]. by rewrite app_cons, IH. Qed.

Lemma app_assoc s t u : (s +:+ t) +:+ u = s +:+ (t +:+ u).
Proof. induction s as [|a s IH]; [done|]. by rewrite !app_cons, IH. Qed.

Lemma app_eq_empty s t : s +:+ t = "" -> s = "" /\ t = "".
Proof. destruct s; [by rewrite app_empty_l|by rewrite app_cons]. Qed.

Section Bytes.
Variable c : ascii.

Lemma trimRightByte_app_sep s :
  strings.trimRightByte (s +:+ String c "") c = strings.trimRightByte s c.
Proof.
  induction s as [|a s IH].
  - rewrite app_empty_l. simpl. by rewrite Ascii.eqb_refl.
  - rewrite app_cons. simpl. by rewrite IH.
Qed.

Lemma trimRightByte_free s :
  contains_byte s c = false -> strings.trimRightByte s c = s.
Proof.
  induction s as [|a s IH]; [done|]. simpl.
  intros [Ha Hs]%orb_false_iff. rewrite (IH Hs), Ha. by destruct s.
Qed.

Lemma trimRightByte_app_keep s t :
  t <> "" -> strings.trimRightByte t c = t ->
  strings.trimRightByte (s +:+ t) c = s +:+ t.
Proof.
  intros Hne Ht. induction s as [|a s IH]; [done|].
  rewrite app_cons. simpl. rewrite IH.
  destruct (s +:+ t) eqn:E; [|done].
  apply app_eq_empty in E as [_ ?]. done.
Qed.

Lemma trimLeftByte_keep s t :
  s <> "" -> contains_byte s c = false ->
  strings.trimLeftByte (s +:+ t) c = s +:+ t.
Proof.
  destruct s as [|a s]; [done|]. intros _. simpl.
  intros [Ha _]%orb_false_iff. rewrite app_cons. simpl. by rewrite Ha.
Qed.

Lemma Split_free s : contains_byte s c = false -> strings.Split s c = [s].
Proof.
  induction s as [|a s IH]; [done|]. simpl.
  intros [Ha Hs]%orb_false_iff. by rewrite Ha, (IH Hs).
Qed.

Lemma Split_app s t :
  contains_byte s c = false ->
  strings.Split (s +:+ String c t) c = s :: strings.Split t c.
Proof.
  induction s as [|a s IH].
  - intros _. rewrite app_empty_l. simpl. by rewrite Ascii.eqb_refl.
  - cbn [contains_byte]. intros [Ha Hs]%orb_false_iff.
    rewrite app_cons. cbn [strings.Split]. by rewrite Ha, (IH Hs).
Qed.
End Bytes.

Lemma slashed_snoc segs s : slashed (segs ++ [s]) = slashed segs +:+ s +:+ "/".
Proof.
  induction segs as [|x segs IH]; simpl.
  - by rewrite app_empty_l.
  - by rewrite IH, !app_assoc.
Qed.

Lemma Split_slashed segs s :
  Forall plain segs -> plain s ->
  strings.Split (slashed segs +:+ s) "/" = segs ++ [s].
Proof.
  intros Hsegs (_ & _ & _ & Hs). induction Hsegs as [|x segs Hx _ IH]; simpl.
  - rewrite app_empty_l. by apply Split_free.
  - destruct Hx as (_ & _ & _ & Hx).
    rewrite app_assoc. change ("/" +:+ slashed segs) with (String "/" (slashed segs)).
    rewrite app_cons. rewrite (Split_app "/" x _ Hx). by rewrite IH.
Qed.

Lemma Trim_path segs s :
  Forall plain segs -> plain s ->
  strings.Trim ("/" +:+ slashed (segs ++ [s])) "/" = slashed segs +:+ s.
Proof.
  intros Hsegs Hs. unfold strings.Trim. rewrite slashed_snoc.
  replace ("/" +:+ slashed segs +:+ s +:+ "/")
    with ((("/" +:+ slashed segs) +:+ s) +:+ "/") by (by rewrite !app_assoc).
  rewrite trimRightByte_app_sep.
  destruct Hs as (Hne & _ & _ & Hfree).
  rewrite trimRightByte_app_keep; [|done|by apply trimRightByte_free].
  rewrite app_assoc. change ("/" +:+ slashed segs +:+ s) with (String "/" (slashed segs +:+ s)).
  simpl. destruct Hsegs as [|x segs (Hx & _ & _ & Hxfree) _]; simpl.
  - rewrite app_empty_l. rewrite <- (app_empty_r s) at 1 2.
    rewrite trimLeftByte_keep by done. by rewrite app_empty_r.
  - rewrite app_assoc. by apply trimLeftByte_keep.
Qed.

Lemma HasPrefix_slash s : strings.HasPrefix ("/" +:+ s) "/" = true.
Proof.
  change ("/" +:+ s) with (String "/" s). unfold strings.HasPrefix. simpl.
  by destruct s.
Qed.

Lemma path_not_root segs s : plain s -> "/" +:+ slashed (segs ++ [s]) <> "/".
Proof.
  intros (Hne & _). rewrite slashed_snoc.
  change ("/" +:+ slashed segs +:+ s +:+ "/") with (String "/" (slashed segs +:+ s +:+ "/")).
  intros [= E]. apply app_eq_empty in E as [_ E].
  apply app_eq_empty in E as [? _]. done.
Qed.

(** ** Paths of directories *)

Lemma canonical_reached h root d segs : canonical h root d segs -> reached h root d segs.
Proof.
  induction 1 as [|d dd p pd segs before after Hd Hp _ IH _ _ _ _]; [constructor|].
  by apply (reached_child h root d (BDir dd) p).
Qed.

Lemma canonical_plain h root d segs : canonical h root d segs -> Forall plain segs.
Proof.
  induction 1; [constructor|]. apply Forall_app. split; [done|]. by constructor.
Qed.

Lemma loop_reached h root rb :
  h !! root = Some rb -> Parent rb = None ->
  forall d segs, reached h root d segs ->
  forall fuel acc, length segs < fuel ->
    CurrentDirectory_loop fuel h d acc = Some ((Name rb +:+ "/") +:+ slashed segs +:+ acc).
Proof.
  intros Hroot Hpar d segs Hr.
  induction Hr as [|d b p segs Hd Hp _ IH]; intros [|fuel] acc Hlt; try (simpl in Hlt; lia).
  - simpl. by rewrite Hroot, Hpar.
  - rewrite length_app in Hlt. simpl in Hlt.
    simpl. rewrite Hd, Hp. rewrite IH by lia.
    by rewrite slashed_snoc, !app_assoc.
Qed.

Lemma walk_canonical h path root d segs :
  canonical h root d segs -> walk h path root segs = Ok d.
Proof.
  induction 1 as [|d dd p pd segs before after Hd Hp _ IH Hpd Hplain Hch Hbefore]; [done|].
  rewrite walk_app, IH. simpl.
  destruct Hplain as (_ & H1 & H2 & _).
  rewrite (step_part_default h path p pd) by (done || by apply as_Directory_Some).
  rewrite Hch. by rewrite (find_child_first h path _ before d after dd).
Qed.

(** In a run every object has such a chain, no longer than its address:
    the loop of [CurrentDirectory] always ends. *)
Lemma reached_exists f :
  tree_inv f -> forall a, a < length (heap f) ->
  exists segs, reached (heap f) 0 a segs /\ length segs <= a.
Proof.
  intros Hinv a. induction (lt_wf a) as [a _ IH]. intros Ha.
  destruct (decide (a = 0)) as [->|NE]; [exists []; split; [constructor|done]|].
  destruct (lookup_lt_is_Some_2 _ _ Ha) as [b Hb].
  destruct (inv_parent f Hinv a b Hb NE) as (p & pd & Hpar & Hlt & Hpd).
  destruct (IH p Hlt) as (segs & Hsegs & Hlen); [by apply lookup_lt_Some in Hpd|].
  exists (segs ++ [Name b]). split; [by apply (reached_child _ _ a b p)|].
  rewrite length_app. simpl. lia.
Qed.

Lemma CurrentDirectory_prints f :
  reachable f ->
  exists segs, reached (heap f) (tree f) (wd f) segs
    /\ forall fuel, length (heap f) <= fuel ->
         CurrentDirectory fuel f = (f, Some (fmt.Println ("/" +:+ slashed segs))).
Proof.
  intros [ops Ht]. pose proof (trace_tree_inv ops f Ht) as Hinv.
  destruct (inv_wd f Hinv) as [d Hd]. destruct (inv_root f Hinv) as [cs Hr].
  apply lookup_lt_Some in Hd as Hlt.
  destruct (reached_exists f Hinv (wd f) Hlt) as (segs & Hsegs & Hlen).
  rewrite (inv_tree f Hinv). exists segs. split; [done|].
  intros fuel Hfuel. unfold CurrentDirectory.
  rewrite (loop_reached _ _ _ Hr eq_refl _ _ Hsegs) by lia.
  simpl. by rewrite app_empty_l, app_empty_r.
Qed.

(** C7. [CurrentDirectory] prepends [name + "/"] from [wd] up the parent
    links until the parent is nil: for a working directory reached from the
    root by [seg1 .. segk] it prints [/seg1/.../segk/], for the root it
    prints [/], and the state after the call is the state before. *)
Theorem CurrentDirectory_renders (f : filesystem) (r : directory) (segs : list string)
    (fuel : nat)
    (Hroot : heap f !! tree f = Some (BDir r))
    (Hparent : dir_parent r = None) (Hname : dir_name r = "")
    (Hreached : reached (heap f) (tree f) (wd f) segs)
    (Hfuel : length segs < fuel) :
  CurrentDirectory fuel f = (f, Some (fmt.Println ("/" +:+ slashed segs)))
  /\ (wd f = tree f -> CurrentDirectory fuel f = (f, Some (fmt.Println "/"))).
Proof.
  unfold CurrentDirectory. split.
  - rewrite (loop_reached _ _ (BDir r) Hroot Hparent _ _ Hreached) by done.
    simpl. by rewrite Hname, app_empty_l, app_empty_r.
  - intros ->. destruct fuel as [|fuel]; [lia|].
    simpl. rewrite Hroot. simpl. by rewrite Hparent, Hname.
Qed.

Lemma CurrentDirectory_renders_witness :
  CurrentDirectory 3 demo = (demo, Some (fmt.Println "/quz/foo/")).
Proof.
  assert (reached (heap demo) (tree demo) (wd demo) ["quz"; "foo"]) as Hr.
  { apply (reached_child (heap demo) 0 2
             (BDir {| dir_parent := Some 1; dir_name := "foo"; dir_children := [3] |})
             1 ["quz"]); [reflexivity..|].
    apply (reached_child (heap demo) 0 1
             (BDir {| dir_parent := Some 0; dir_name := "quz"; dir_children := [2] |})
             0 []); [reflexivity..|].
    constructor. }
  assert (length ["quz"; "foo"] < 3) as Hlt by (simpl; lia).
  exact (proj1 (CurrentDirectory_renders demo
                  {| dir_parent := None; dir_name := ""; dir_children := [1] |}
                  ["quz"; "foo"] 3 eq_refl eq_refl eq_refl Hr Hlt)).
Defined.

(** ** Round trip of path computation and navigation *)

(** C3, as stated, fails: with two sibling directories named [a], the path
    computed for the second one is [/a/], and [ChangeDirectory "/a/"] goes
    to the first one. *)
Lemma roundtrip_fails_on_duplicate_name :
  let f := run [OpCreateDirectory "a" []; OpCreateDirectory "a" []] in
  reachable f
  /\ heap f !! tree f
     = Some (BDir {| dir_parent := None; dir_name := ""; dir_children := [1; 2] |})
  /\ heap f !! 2
     = Some (BDir {| dir_parent := Some 0; dir_name := "a"; dir_children := [] |})
  /\ CurrentDirectory_loop 2 (heap f) 2 "" = Some "/a/"
  /\ ChangeDirectory f "/a/" = ({| heap := heap f; tree := tree f; wd := 1 |}, Ok tt)
  /\ wd (fst (ChangeDirectory f "/a/")) <> 2.
Proof.
  simpl. split; [|by repeat split].
  eexists. apply trace_run. simpl. repeat split; constructor.
Qed.

(** A name with a slash cannot be spelled by a path either: the path
    computed for a directory named [a/b] is [/a/b/], which asks for [a]. *)
Example roundtrip_fails_on_slash_name :
  let f := run [OpCreateDirectory "a/b" []] in
  CurrentDirectory_loop 2 (heap f) 1 "" = Some "/a/b/"
  /\ ChangeDirectory f "/a/b/" = (f, Err "the directory '/a/b/' does not exist").
Proof. by split. Qed.

(** C3, amended. Let [d] be a Directory whose parent links lead to the
    root through directories that each have a plain name (not empty, not
    [.] or [..], without slash) and are each the first Directory of that
    name among the children of their parent.  Then the loop of
    [CurrentDirectory] started at [d] yields a path, and [ChangeDirectory]
    with that path succeeds and sets [wd] to [d]. *)
Theorem roundtrip (f : filesystem) (r : directory) (d : addr) (segs : list string)
    (fuel : nat)
    (Hroot : heap f !! tree f = Some (BDir r))
    (Hparent : dir_parent r = None) (Hname : dir_name r = "")
    (Hcanon : canonical (heap f) (tree f) d segs)
    (Hfuel : length segs < fuel) :
  exists path,
    CurrentDirectory_loop fuel (heap f) d "" = Some path
    /\ path = "/" +:+ slashed segs
    /\ ChangeDirectory f path = ({| heap := heap f; tree := tree f; wd := d |}, Ok tt).
Proof.
  exists ("/" +:+ slashed segs). split; [|split; [done|]].
  - rewrite (loop_reached _ _ (BDir r) Hroot Hparent d segs) by
      (done || by apply canonical_reached).
    simpl. by rewrite Hname, app_empty_l, app_empty_r.
  - pose proof (canonical_plain _ _ _ _ Hcanon) as Hplain.
    pose proof (walk_canonical _ ("/" +:+ slashed segs) _ _ _ Hcanon) as Hwalk.
    destruct segs as [|s0 segs0] using rev_ind.
    + inversion Hcanon as [|? ? ? ? l ? ? ? ? ? ? ? ? ? E]; [done|].
      by destruct l.
    + clear IHsegs0. apply Forall_app in Hplain as [Hsegs Hs].
      inversion Hs as [|? ? Hs0 _]; subst.
      rewrite ChangeDirectory_unfold by (by apply path_not_root).
      rewrite Trim_path, Split_slashed by done.
      rewrite HasPrefix_slash. by rewrite Hwalk.
Qed.

Lemma roundtrip_witness :
  exists path,
    CurrentDirectory_loop 3 (heap demo) 2 "" = Some path
    /\ path = "/" +:+ slashed ["quz"; "foo"]
    /\ ChangeDirectory demo path = ({| heap := heap demo; tree := tree demo; wd := 2 |}, Ok tt).
Proof.
  assert (forall s, contains_byte s "/" = false -> s <> "" -> s <> "." -> s <> ".." -> plain s)
    as Hplain by (intros s ????; by repeat split).
  assert (plain "quz") as Hquz by (apply Hplain; [reflexivity|discriminate..]).
  assert (plain "foo") as Hfoo by (apply Hplain; [reflexivity|discriminate..]).
  assert (canonical (heap demo) (tree demo) 1 ["quz"]) as Hc1.
  { exact (canonical_child (heap demo) 0 1
             {| dir_parent := Some 0; dir_name := "quz"; dir_children := [2] |}
             0 {| dir_parent := None; dir_name := ""; dir_children := [1] |}
             [] [] [] eq_refl eq_refl (canonical_root _ _) eq_refl Hquz eq_refl
             (List.Forall_nil _)). }
  assert (canonical (heap demo) (tree demo) 2 ["quz"; "foo"]) as Hc.
  { exact (canonical_child (heap demo) 0 2
             {| dir_parent := Some 1; dir_name := "foo"; dir_children := [3] |}
             1 {| dir_parent := Some 0; dir_name := "quz"; dir_children := [2] |}
             ["quz"] [] [] eq_refl eq_refl Hc1 eq_refl Hfoo eq_refl
             (List.Forall_nil _)). }
  assert (length ["quz"; "foo"] < 3) as Hlt by (simpl; lia).
  exact (roundtrip demo {| dir_parent := None; dir_name := ""; dir_children := [1] |}
           2 ["quz"; "foo"] 3 eq_refl eq_refl eq_refl Hc Hlt).
Defined.


(** ** Parents and children agree *)

Lemma bumped_Parent h w a b : Parent (bumped h w a b) = Parent b.
Proof. by destruct b. Qed.

Lemma bumped_Name h w a b : Name (bumped h w a b) = Name b.
Proof. by destruct b. Qed.

Lemma bumped_other h w a b : a <> w -> bumped h w a b = b.
Proof.
  intros Hne. destruct b as [x|x]; [done|]. simpl.
  rewrite decide_False by done. rewrite app_nil_r. by destruct x.
Qed.

Lemma grown_lookup_lt h w d nb a b :
  h !! w = Some (BDir d) -> h !! a = Some b ->
  grown h w d nb !! a = Some (bumped h w a b).
Proof.
  intros Hw Ha. destruct (decide (a = w)) as [E|NE].
  - subst a. rewrite (grown_lookup_wd h w d nb Hw).
    rewrite Hw in Ha. inversion Ha; subst b. simpl. by rewrite decide_True.
  - rewrite grown_lookup_old; [|done|by apply lookup_lt_Some in Ha].
    by rewrite bumped_other.
Qed.

(** The converse: an object of the grown heap is the new one or a bumped
    old one. *)
Lemma grown_lookup_cases h w d nb a b :
  h !! w = Some (BDir d) -> grown h w d nb !! a = Some b ->
  (a = length h /\ b = nb) \/ (exists b0, h !! a = Some b0 /\ b = bumped h w a b0).
Proof.
  intros Hw Hb.
  destruct (decide (a = length h)) as [->|Hne].
  { left. rewrite (grown_lookup_new h w d nb Hw) in Hb. by inversion Hb. }
  right. assert (a < length h) as Hlt.
  { apply lookup_lt_Some in Hb. rewrite length_grown in Hb. lia. }
  destruct (lookup_lt_is_Some_2 _ _ Hlt) as [b0 Hb0]. exists b0. split; [done|].
  rewrite (grown_lookup_lt h w d nb a b0 Hw Hb0) in Hb. by inversion Hb.
Qed.

Lemma listed_inv_grown f d nb :
  listed_inv f -> heap f !! wd f = Some (BDir d) -> Parent nb = Some (wd f) ->
  listed_inv {| heap := grown (heap f) (wd f) d nb; tree := tree f; wd := wd f |}.
Proof.
  intros Hl Hw Hnb c b p Hb Hp. simpl in *.
  destruct (grown_lookup_cases _ _ _ _ _ _ Hw Hb) as [[-> ->]|(b0 & Hb0 & ->)].
  - rewrite Hnb in Hp. inversion Hp; subst p.
    rewrite (grown_lookup_wd _ _ _ nb Hw). eexists. split; [done|].
    simpl. apply elem_of_app. right. by apply list_elem_of_singleton.
  - rewrite bumped_Parent in Hp. destruct (Hl c b0 p Hb0 Hp) as (dp & Hdp & Hin).
    rewrite (grown_lookup_lt _ _ _ nb p _ Hw Hdp). eexists. split; [done|].
    simpl. apply elem_of_app. by left.
Qed.

Lemma listed_inv_exec f o : tree_inv f -> listed_inv f -> listed_inv (exec f o).
Proof.
  intros Hinv Hl. destruct (inv_wd f Hinv) as [d Hd].
  destruct o as [name content|name children|path| |]; simpl; try done.
  - rewrite (CreateFile_grown f name content d Hd). by apply listed_inv_grown.
  - rewrite (CreateDirectory_grown f name children d Hd). by apply listed_inv_grown.
  - intros c b p. rewrite (ChangeDirectory_heap f path). apply Hl.
Qed.

Lemma owned_inv_grown f d nb :
  tree_inv f -> owned_inv f ->
  heap f !! wd f = Some (BDir d) -> Parent nb = Some (wd f) ->
  (forall x, nb = BDir x -> dir_children x = []) ->
  owned_inv {| heap := grown (heap f) (wd f) d nb; tree := tree f; wd := wd f |}.
Proof.
  intros Hinv Ho Hw Hnb Hleaf a x Hx. simpl in *.
  destruct (grown_lookup_cases _ _ _ _ _ _ Hw Hx) as [[-> E]|(b0 & Hb0 & E)].
  { rewrite (Hleaf x (eq_sym E)). split; [constructor|]. by intros c ?%elem_of_nil. }
  destruct b0 as [y|y]; [done|]. inversion E; subst x; clear E. simpl.
  destruct (Ho a y Hb0) as [Hnd Hch].
  pose proof (inv_children f Hinv a y Hb0) as Hlive.
  assert (forall c, c ∈ dir_children y ->
            exists b, grown (heap f) (wd f) d nb !! c = Some b /\ Parent b = Some a) as Hold.
  { intros c Hc. destruct (Hch c Hc) as (b & Hb & Hp).
    exists (bumped (heap f) (wd f) c b). split; [by apply grown_lookup_lt|].
    by rewrite bumped_Parent. }
  destruct (decide (a = wd f)) as [->|NE].
  - split.
    + apply NoDup_app. split; [done|]. split; [|apply NoDup_singleton].
      intros c Hc ->%list_elem_of_singleton.
      rewrite Forall_forall in Hlive. apply Hlive in Hc. lia.
    + intros c [Hc| ->%list_elem_of_singleton]%elem_of_app; [by apply Hold|].
      exists nb. split; [by apply grown_lookup_new|done].
  - rewrite app_nil_r. split; [done|]. apply Hold.
Qed.

Lemma owned_inv_exec f o :
  tree_inv f -> owned_inv f -> childless o -> owned_inv (exec f o).
Proof.
  intros Hinv Ho Hc. destruct (inv_wd f Hinv) as [d Hd].
  destruct o as [name content|name children|path| |]; simpl; try done.
  - rewrite (CreateFile_grown f name content d Hd). by apply owned_inv_grown.
  - rewrite (CreateDirectory_grown f name children d Hd).
    apply owned_inv_grown; try done. simpl in Hc. by intros x [= <-].
  - intros a x. rewrite (ChangeDirectory_heap f path). apply Ho.
Qed.

Lemma trace_listed_inv ops f : trace ops f -> listed_inv f.
Proof.
  induction 1 as [|ops f o Ht IH Ha].
  - intros [|[|c]] b p Hb Hp; simpl in *; try done. inversion Hb; subst b. done.
  - apply listed_inv_exec; [by apply trace_tree_inv with ops|done].
Qed.

Lemma trace_owned_inv ops f : trace ops f -> Forall childless ops -> owned_inv f.
Proof.
  induction 1 as [|ops f o Ht IH Ha].
  - intros _ [|[|a]] d Hd; simpl in *; try done. inversion Hd; subst d. simpl.
    split; [constructor|]. by intros c ?%elem_of_nil.
  - intros [Hops Ho]%Forall_app. apply owned_inv_exec.
    + by apply trace_tree_inv with ops.
    + by apply IH.
    + by inversion Ho.
Qed.

(** With initial children ownership is lost: the root handed to
    [CreateDirectory] as a child is listed by a directory that is not its
    parent. *)
Example children_not_owned :
  let f := fst (CreateDirectory NewFilesystem "a" [0]) in
  reachable f
  /\ as_Directory (heap f) 1
     = Some {| dir_parent := Some 0; dir_name := "a"; dir_children := [0] |}
  /\ Parent <$> heap f !! 0 = Some None.
Proof.
  simpl. split; [|by split].
  exists [OpCreateDirectory "a" [0]]. apply trace_run. simpl. repeat constructor.
Qed.

(** ** Creation: what it changes, and what it leaves to navigation *)

Lemma creation_effect f d nb :
  tree_inv f -> heap f !! wd f = Some (BDir d) ->
  length (grown (heap f) (wd f) d nb) = S (length (heap f))
  /\ grown (heap f) (wd f) d nb !! length (heap f) = Some nb
  /\ as_Directory (grown (heap f) (wd f) d nb) (wd f)
     = Some {| dir_parent := dir_parent d; dir_name := dir_name d;
               dir_children := dir_children d ++ [length (heap f)] |}
  /\ (length (heap f) ∉ dir_children d)
  /\ (forall a b, a <> wd f -> heap f !! a = Some b ->
        grown (heap f) (wd f) d nb !! a = Some b).
Proof.
  intros Hinv Hd. split; [apply length_grown|]. split; [by apply grown_lookup_new|].
  split; [apply as_Directory_Some; by apply grown_lookup_wd|]. split.
  - intros Hin. pose proof (inv_children f Hinv _ _ Hd) as Hlive.
    rewrite Forall_forall in Hlive. apply Hlive in Hin. lia.
  - intros a b Hne Hb. rewrite grown_lookup_old; [done..|].
    by apply lookup_lt_Some in Hb.
Qed.

(** The scan of the [default] case over old children reads the same in
    the grown heap. *)
Lemma find_child_grown h w d nb path part cs :
  h !! w = Some (BDir d) -> Forall (fun c => c < length h) cs ->
  find_child (grown h w d nb) path cs part = find_child h path cs part.
Proof.
  intros Hw. induction 1 as [|c cs Hc _ IH]; [done|]. simpl.
  destruct (lookup_lt_is_Some_2 _ _ Hc) as [b Hb].
  rewrite (grown_lookup_lt h w d nb c b Hw Hb), Hb.
  destruct b as [x|x]; simpl; [done|]. by rewrite IH.
Qed.

Lemma find_child_app h path part cs extra :
  find_child h path (cs ++ extra) part
  = match find_child h path cs part with
    | Ok c => Ok c
    | Err _ => find_child h path extra part
    | Panic => Panic
    end.
Proof.
  induction cs as [|c cs IH]; simpl; [done|].
  destruct (h !! c) as [[x|x]|]; [done| |done].
  by destruct (decide (dir_name x = part)).
Qed.

Lemma find_child_Err h path part cs msg :
  find_child h path cs part = Err msg -> msg = fmt.Errorf_not_exist path.
Proof.
  induction cs as [|c cs IH]; simpl; [congruence|].
  destruct (h !! c) as [[x|x]|]; [done| |done].
  by destruct (decide (dir_name x = part)).
Qed.

(** One step of the walk in the grown heap, from a directory of the old
    one: the same, unless the old scan fell through in [wd], where the new
    child is asked too. *)
Lemma step_part_grown f d nb path cur part :
  tree_inv f -> heap f !! wd f = Some (BDir d) ->
  (exists x, heap f !! cur = Some (BDir x)) ->
  step_part (grown (heap f) (wd f) d nb) path cur part
  = match step_part (heap f) path cur part with
    | Err msg =>
        if decide (cur = wd f)
        then find_child (grown (heap f) (wd f) d nb) path [length (heap f)] part
        else Err msg
    | r => r
    end.
Proof.
  intros Hinv Hw [x Hx].
  pose proof (grown_lookup_lt _ _ _ nb cur _ Hw Hx) as Hx'. simpl in Hx'.
  destruct (decide (part = ".")) as [->|H1]; [done|].
  destruct (decide (part = "..")) as [->|H2].
  { unfold step_part. simpl. rewrite Hx', Hx. simpl. by destruct (dir_parent x). }
  rewrite (step_part_default (heap f) path cur x part) by
    (done || by apply as_Directory_Some).
  rewrite (step_part_default _ path cur _ part) by
    (done || apply as_Directory_Some; exact Hx').
  unfold Children. simpl. rewrite find_child_app.
  rewrite find_child_grown by (done || by apply (inv_children f Hinv cur)).
  destruct (find_child (heap f) path (dir_children x) part) eqn:E; try done.
  destruct (decide (cur = wd f)); [done|]. simpl.
  by rewrite (find_child_Err _ _ _ _ _ E).
Qed.

Lemma step_part_Err h path cur part msg :
  step_part h path cur part = Err msg -> msg = fmt.Errorf_not_exist path.
Proof.
  unfold step_part. repeat case_decide; [done| |].
  - destruct (h !! cur) as [b|]; [|done]. by destruct (Parent b).
  - destruct (as_Directory h cur); [|done]. apply find_child_Err.
Qed.

Lemma walk_grown_Ok f d nb path parts : forall cur c,
  tree_inv f -> heap f !! wd f = Some (BDir d) ->
  (exists x, heap f !! cur = Some (BDir x)) ->
  walk (heap f) path cur parts = Ok c ->
  walk (grown (heap f) (wd f) d nb) path cur parts = Ok c.
Proof.
  induction parts as [|p parts IH]; intros cur c Hinv Hw Hcur; simpl; [done|].
  rewrite (step_part_grown f d nb path cur p Hinv Hw Hcur).
  destruct (step_part (heap f) path cur p) as [mid| |] eqn:Hs; [|done..].
  apply IH; try done. by eapply step_part_dir.
Qed.

Lemma walk_grown_file f d x path parts : forall cur,
  tree_inv f -> heap f !! wd f = Some (BDir d) ->
  (exists y, heap f !! cur = Some (BDir y)) ->
  walk (grown (heap f) (wd f) d (BFile x)) path cur parts
  = walk (heap f) path cur parts.
Proof.
  induction parts as [|p parts IH]; intros cur Hinv Hw Hcur; simpl; [done|].
  rewrite (step_part_grown f d (BFile x) path cur p Hinv Hw Hcur).
  destruct (step_part (heap f) path cur p) as [mid|msg|] eqn:Hs; [|  |done].
  - apply IH; try done. by eapply step_part_dir.
  - apply step_part_Err in Hs as ->. destruct (decide (cur = wd f)); [|done].
    simpl. by rewrite (grown_lookup_new _ _ _ _ Hw).
Qed.

Lemma start_is_dir f path :
  tree_inv f ->
  exists x, heap f !! (if strings.HasPrefix path "/" then tree f else wd f)
            = Some (BDir x).
Proof.
  intros Hinv. destruct (inv_root f Hinv) as [cs Hr].
  destruct (strings.HasPrefix path "/"); [|apply (inv_wd f Hinv)].
  rewrite (inv_tree f Hinv). eauto.
Qed.

(** ** Paths given by their segments *)

Lemma joined_cons s s' segs :
  joined (s :: s' :: segs) = s +:+ "/" +:+ joined (s' :: segs).
Proof. reflexivity. Qed.

Lemma joined_not_empty segs : Forall segment segs -> segs <> [] -> joined segs <> "".
Proof.
  intros Hs Hne. destruct Hs as [|s segs [Hs _] _]; [done|].
  destruct segs as [|s' segs]; [done|]. rewrite joined_cons.
  by intros [? _]%app_eq_empty.
Qed.

Lemma Split_joined segs :
  Forall segment segs -> segs <> [] -> strings.Split (joined segs) "/" = segs.
Proof.
  intros Hs Hne. induction Hs as [|s segs [_ Hfree] Hrest IH]; [done|].
  destruct segs as [|s' segs]; [by apply Split_free|].
  rewrite joined_cons. change ("/" +:+ joined (s' :: segs)) with (String "/" (joined (s' :: segs))).
  rewrite (Split_app "/" s _ Hfree). by rewrite IH.
Qed.

Lemma joined_head segs s :
  exists rest, joined (s :: segs) = s +:+ rest.
Proof.
  destruct segs as [|s' segs]; [exists ""; by rewrite app_empty_r|].
  rewrite joined_cons. eauto.
Qed.

Lemma Trim_joined segs :
  Forall segment segs -> strings.Trim (joined segs) "/" = joined segs.
Proof.
  intros Hs. unfold strings.Trim.
  assert (strings.trimRightByte (joined segs) "/" = joined segs) as ->.
  { induction Hs as [|s segs [_ Hfree] Hrest IH]; [done|].
    destruct segs as [|s' segs]; [by apply trimRightByte_free|].
    rewrite joined_cons, <- app_assoc.
    apply trimRightByte_app_keep; [|done].
    by apply joined_not_empty. }
  destruct Hs as [|s segs [Hne Hfree] _]; [done|].
  destruct (joined_head segs s) as [rest ->]. by apply trimLeftByte_keep.
Qed.

Lemma joined_relative segs :
  Forall segment segs -> segs <> [] ->
  strings.HasPrefix (joined segs) "/" = false /\ joined segs <> "/".
Proof.
  intros Hs Hne. destruct Hs as [|s segs [Hs Hfree] _]; [done|].
  destruct (joined_head segs s) as [rest ->].
  destruct s as [|a s]; [done|]. simpl in Hfree.
  apply orb_false_iff in Hfree as [Ha _]. apply Ascii.eqb_neq in Ha.
  rewrite app_cons. split.
  - unfold strings.HasPrefix. cbn [String.prefix].
    destruct (ascii_dec "/" a); [|done]. by subst a.
  - intros [= E _]. by subst a.
Qed.

Lemma Trim_slash_prefix p : strings.Trim ("/" +:+ p) "/" = strings.Trim p "/".
Proof.
  change ("/" +:+ p) with (String "/" p). unfold strings.Trim. simpl.
  by destruct (strings.trimRightByte p "/").
Qed.

Lemma step_part_Ok_path h p1 p2 cur part c :
  step_part h p1 cur part = Ok c -> step_part h p2 cur part = Ok c.
Proof.
  unfold step_part. repeat case_decide; try done.
  destruct (as_Directory h cur) as [d|]; [|done].
  intros (pre & post & v & -> & Hc & Hn & Hpre)%find_child_Ok.
  by apply find_child_first with v.
Qed.

Lemma walk_Ok_path h p1 p2 parts : forall cur c,
  walk h p1 cur parts = Ok c -> walk h p2 cur parts = Ok c.
Proof.
  induction parts as [|p parts IH]; intros cur c; simpl; [done|].
  destruct (step_part h p1 cur p) as [mid| |] eqn:Hs; [|done..].
  rewrite (step_part_Ok_path h p1 p2 cur p mid Hs). apply IH.
Qed.

Lemma lands_walk f path c :
  path <> "/" ->
  lands f path c
  <-> walk (heap f) path (if strings.HasPrefix path "/" then tree f else wd f)
        (strings.Split (strings.Trim path "/") "/") = Ok c.
Proof.
  intros Hne. unfold lands. rewrite ChangeDirectory_unfold by done.
  destruct (walk _ _ _ _) as [c'| |]; split; try done.
  - by intros [= ->].
  - by intros [= ->].
Qed.

Lemma lands_relative f segs c :
  Forall segment segs -> segs <> [] ->
  lands f (joined segs) c <-> walk (heap f) "" (wd f) segs = Ok c.
Proof.
  intros Hs Hne. destruct (joined_relative segs Hs Hne) as [Hrel Hnr].
  rewrite lands_walk by done. rewrite Hrel, Trim_joined, Split_joined by done.
  split; apply walk_Ok_path.
Qed.

Lemma lands_absolute f segs c :
  Forall segment segs -> segs <> [] ->
  lands f ("/" +:+ joined segs) c <-> walk (heap f) "" (tree f) segs = Ok c.
Proof.
  intros Hs Hne.
  assert ("/" +:+ joined segs <> "/") as Hnr.
  { change ("/" +:+ joined segs) with (String "/" (joined segs)).
    intros [= E]. by apply (joined_not_empty segs Hs Hne). }
  rewrite lands_walk by done.
  rewrite HasPrefix_slash, Trim_slash_prefix, Trim_joined, Split_joined by done.
  split; apply walk_Ok_path.
Qed.

Lemma plain_segment n : plain n -> segment n.
Proof. by intros (? & _ & _ & ?). Qed.

(** The walk does not depend on the path text except in its message. *)
Lemma find_child_path h p1 p2 part cs :
  find_child h p2 cs part
  = match find_child h p1 cs part with
    | Ok c => Ok c
    | Err _ => Err (fmt.Errorf_not_exist p2)
    | Panic => Panic
    end.
Proof.
  induction cs as [|c cs IH]; simpl; [done|].
  destruct (h !! c) as [[x|x]|]; [done| |done].
  by destruct (decide (dir_name x = part)).
Qed.

Lemma step_part_path h p1 p2 cur part :
  step_part h p2 cur part
  = match step_part h p1 cur part with
    | Ok c => Ok c
    | Err _ => Err (fmt.Errorf_not_exist p2)
    | Panic => Panic
    end.
Proof.
  unfold step_part. repeat case_decide; [done| |].
  - destruct (h !! cur) as [b|]; [|done]. by destruct (Parent b).
  - destruct (as_Directory h cur); [|done]. apply find_child_path.
Qed.

Lemma walk_dots h path parts : forall cur,
  walk h path cur (filter (fun s => s <> ".") parts) = walk h path cur parts.
Proof.
  induction parts as [|p parts IH]; intros cur; [done|].
  destruct (decide (p = ".")) as [->|Hne].
  - rewrite filter_cons_False by (by intros ?). simpl. apply IH.
  - rewrite filter_cons_True by done. simpl.
    destruct (step_part h path cur p); [apply IH|done..].
Qed.

Lemma Forall_segment_filter (P : string -> Prop) `{forall s, Decision (P s)} segs :
  Forall segment segs -> Forall segment (filter P segs).
Proof.
  induction 1 as [|s segs Hs _ IH]; [constructor|].
  destruct (decide (P s)).
  - rewrite filter_cons_True by done. by constructor.
  - by rewrite filter_cons_False.
Qed.

Lemma walk_all_dots h path parts cur :
  filter (fun s => s <> ".") parts = [] -> walk h path cur parts = Ok cur.
Proof. intros E. by rewrite <- walk_dots, E. Qed.

(** ** How navigations compose *)

(** X7. [CreateDirectory n] followed by [ChangeDirectory n], for a plain
    name [n], always succeeds.  It enters the new directory when
    [ChangeDirectory n] did not succeed before, and otherwise the older
    directory that [n] already led to. *)
Theorem mkdir_then_cd (f : filesystem) (n : string) (children : list addr) :
  reachable f -> plain n ->
  match ChangeDirectory f n with
  | (g, Ok _) => lands (fst (CreateDirectory f n children)) n (wd g)
  | _ => lands (fst (CreateDirectory f n children)) n (length (heap f))
  end.
Proof.
  intros [ops Ht] Hplain. pose proof (trace_tree_inv ops f Ht) as Hinv.
  destruct (inv_wd f Hinv) as [d Hd].
  assert (Forall segment [n]) as Hseg by (constructor; [by apply plain_segment|constructor]).
  destruct (joined_relative [n] Hseg) as [Hrel Hnr]; [done|]. simpl in Hrel, Hnr.
  pose proof (walk_no_panic f n [n] (wd f) Hinv (ex_intro _ d Hd)) as Hnp.
  pose proof (Trim_joined [n] Hseg) as HT. change (joined [n]) with n in HT.
  assert (strings.Split n "/" = [n]) as HS by (by apply (Split_joined [n])).
  rewrite (CreateDirectory_grown f n children d Hd). simpl.
  rewrite ChangeDirectory_unfold by done.
  rewrite Hrel, HT, HS.
  set (f' := {| heap := grown _ _ _ _; tree := tree f; wd := wd f |}).
  assert (forall c, lands f' n c
                    <-> step_part (heap f') "" (wd f) n = Ok c) as Hl.
  { intros c. rewrite (lands_relative f' [n] c) by done. simpl.
    by destruct (step_part _ _ _ _). }
  simpl in Hnp |- *.
  pose proof (step_part_grown f d
                (BDir {| dir_parent := Some (wd f); dir_name := n;
                         dir_children := children |})
                "" (wd f) n Hinv Hd (ex_intro _ d Hd)) as Hs.
  rewrite (step_part_path (heap f) n "" (wd f) n) in Hs.
  destruct (step_part (heap f) n (wd f) n) as [c|msg|]; [| |done].
  - simpl. by apply Hl.
  - apply Hl. unfold f'. simpl. rewrite Hs. rewrite decide_True by done.
    simpl. rewrite (grown_lookup_new _ _ _ _ Hd). by rewrite decide_True.
Qed.

Lemma mkdir_then_cd_witness :
  lands (fst (CreateDirectory NewFilesystem "quz" [])) "quz" 1.
Proof.
  assert (plain "quz") as Hp by (repeat split; discriminate || reflexivity).
  assert (reachable NewFilesystem) as Hr by (exists []; constructor).
  exact (mkdir_then_cd NewFilesystem "quz" [] Hr Hp).
Defined.

(** X8. [.] segments can be dropped from a relative path: the path and the
    path without them lead to the same directory or both fail; a path of
    [.] segments only succeeds and leaves [wd] where it is. *)
Theorem dot_segments_dropped (f : filesystem) (segs : list string) (c : addr) :
  Forall segment segs -> segs <> [] ->
  (filter (fun s => s <> ".") segs <> [] ->
   (lands f (joined segs) c <-> lands f (joined (filter (fun s => s <> ".") segs)) c))
  /\ (filter (fun s => s <> ".") segs = [] -> lands f (joined segs) (wd f)).
Proof.
  intros Hs Hne. split.
  - intros Hf. rewrite !lands_relative by (done || by apply Forall_segment_filter).
    by rewrite walk_dots.
  - intros Hf. apply lands_relative; [done..|]. by apply walk_all_dots.
Qed.

Lemma dot_segments_dropped_witness :
  lands demo (joined ["."; ".."; "."]) 1 <-> lands demo (joined [".."]) 1.
Proof.
  assert (forall s, s <> "" -> contains_byte s "/" = false -> segment s) as Hseg
    by (by split).
  assert (Forall segment ["."; ".."; "."]) as Hs
    by (repeat constructor; discriminate).
  assert (["."; ".."; "."] <> []) as Hne by discriminate.
  apply (proj1 (dot_segments_dropped demo ["."; ".."; "."] 1 Hs Hne)).
  discriminate.
Defined.

(** X9. Entering the root first and walking a path from there is the
    same as walking the path written with a leading slash, for every path
    but the empty one and [/]. *)
Theorem cd_root_then_path (f : filesystem) (p : string) (c : addr) :
  p <> "" -> p <> "/" ->
  lands (fst (ChangeDirectory f "/")) p c <-> lands f ("/" +:+ p) c.
Proof.
  intros Hne Hnr.
  assert ("/" +:+ p <> "/") as Hnr'.
  { change ("/" +:+ p) with (String "/" p). by intros [= E]. }
  rewrite !lands_walk by done.
  rewrite HasPrefix_slash, Trim_slash_prefix. simpl.
  destruct (strings.HasPrefix p "/"); split; apply walk_Ok_path.
Qed.

Lemma cd_root_then_path_witness :
  lands (fst (ChangeDirectory demo "/")) "quz/foo" 2 <-> lands demo ("/" +:+ "quz/foo") 2.
Proof.
  assert ("quz/foo" <> "") as H1 by discriminate.
  assert ("quz/foo" <> "/") as H2 by discriminate.
  exact (cd_root_then_path demo "quz/foo" 2 H1 H2).
Defined.

(** X10. A relative path of two parts leads where walking the first part
    and then the second leads: [cd a/b] is [cd a] followed by [cd b]. *)
Theorem cd_compose (f : filesystem) (first second : list string) (c : addr) :
  Forall segment first -> Forall segment second -> first <> [] -> second <> [] ->
  lands f (joined (first ++ second)) c
  <-> exists mid, lands f (joined first) mid
        /\ lands {| heap := heap f; tree := tree f; wd := mid |} (joined second) c.
Proof.
  intros H1 H2 Hn1 Hn2.
  rewrite lands_relative; [|by apply Forall_app|by destruct first].
  rewrite walk_app. split.
  - destruct (walk (heap f) "" (wd f) first) as [mid| |] eqn:Hw; [|done..].
    intros Hc. exists mid. split; by apply lands_relative.
  - intros (mid & Hm & Hc). apply lands_relative in Hm; [|done..].
    apply lands_relative in Hc; [|done..]. simpl in Hc. by rewrite Hm.
Qed.

Lemma cd_compose_witness :
  lands (fst (ChangeDirectory demo "/")) (joined (["quz"] ++ ["foo"])) 2
  <-> exists mid, lands (fst (ChangeDirectory demo "/")) (joined ["quz"]) mid
        /\ lands {| heap := heap demo; tree := tree demo; wd := mid |} (joined ["foo"]) 2.
Proof.
  assert (Forall segment ["quz"]) as H1 by (repeat constructor; discriminate).
  assert (Forall segment ["foo"]) as H2 by (repeat constructor; discriminate).
  assert (["quz"] <> []) as N1 by discriminate.
  assert (["foo"] <> []) as N2 by discriminate.
  exact (cd_compose (fst (ChangeDirectory demo "/")) ["quz"] ["foo"] 2 H1 H2 N1 N2).
Defined.

(** A plain segment steps to a child Directory of that name. *)
Lemma step_part_plain h path cur part c :
  plain part -> step_part h path cur part = Ok c ->
  exists d v, h !! cur = Some (BDir d) /\ c ∈ Children d
    /\ h !! c = Some (BDir v) /\ dir_name v = part.
Proof.
  intros (_ & H1 & H2 & _). unfold step_part.
  rewrite (decide_False _ _ H1), (decide_False _ _ H2).
  destruct (as_Directory h cur) as [d|] eqn:Hd; [|done].
  apply as_Directory_Some in Hd.
  intros (pre & post & v & Hch & Hc & Hn & _)%find_child_Ok.
  exists d, v. repeat split; try done. rewrite Hch.
  apply elem_of_app. right. by left.
Qed.

Lemma walk_dotdot_root h path root r k :
  h !! root = Some r -> Parent r = None ->
  walk h path root (replicate k "..") = Ok root.
Proof.
  intros Hr Hp. induction k as [|k IH]; [done|]. simpl.
  unfold step_part. simpl. by rewrite Hr, Hp.
Qed.

Lemma walk_dotdot_reached h path root r :
  h !! root = Some r -> Parent r = None ->
  forall d segs, reached h root d segs ->
  forall k, length segs <= k -> walk h path d (replicate k "..") = Ok root.
Proof.
  intros Hr Hp d segs Hreach.
  induction Hreach as [|d b p segs Hd Hpar _ IH]; intros k Hk.
  - by apply walk_dotdot_root with r.
  - rewrite length_app in Hk. simpl in Hk.
    destruct k as [|k]; [lia|]. simpl. unfold step_part. simpl.
    rewrite Hd, Hpar. apply IH. lia.
Qed.

Lemma walk_plain_reached f path root :
  owned_inv f ->
  forall segs cur here c,
    Forall plain segs ->
    reached (heap f) root cur here ->
    walk (heap f) path cur segs = Ok c ->
    reached (heap f) root c (here ++ segs).
Proof.
  intros Ho segs. induction segs as [|s segs IH]; intros cur here c Hs Hreach; simpl.
  - intros [= <-]. by rewrite app_nil_r.
  - inversion Hs as [|? ? Hplain Hrest]; subst.
    destruct (step_part (heap f) path cur s) as [m| |] eqn:Hstep; [|done..].
    destruct (step_part_plain _ _ _ _ _ Hplain Hstep) as (d & v & Hd & Hin & Hm & Hn).
    destruct (Ho cur d Hd) as [_ Hch]. destruct (Hch m Hin) as (b & Hb & Hp).
    intros Hw. replace (here ++ s :: segs) with ((here ++ [s]) ++ segs)
      by (by rewrite <- List.app_assoc).
    apply (IH m); [done| |done].
    rewrite Hm in Hb. inversion Hb; subst b.
    rewrite <- Hn. by apply (reached_child _ _ m (BDir v) cur).
Qed.

(** A directory handed over as an initial child keeps its old parent, and
    [..] from it does not come back. *)
Example dotdot_leaves_adopter :
  let f := run [OpCreateDirectory "x" []; OpCreateDirectory "a" [1]; OpChangeDirectory "a"] in
  wd f = 2 /\ lands f "x" 1
  /\ wd (fst (ChangeDirectory {| heap := heap f; tree := tree f; wd := 1 |} "..")) = 0.
Proof. by repeat split. Qed.

(** X12. From a working directory at depth [k] or less, a path of [k]
    segments [..] leads to the root. *)
Theorem dotdot_to_root (f : filesystem) (segs : list string) (k : nat) :
  reachable f -> reached (heap f) (tree f) (wd f) segs ->
  length segs <= k -> 1 <= k ->
  lands f (joined (replicate k "..")) (tree f).
Proof.
  intros [ops Ht] Hreach Hk Hpos. pose proof (trace_tree_inv ops f Ht) as Hinv.
  destruct (inv_root f Hinv) as [cs Hr]. rewrite <- (inv_tree f Hinv) in Hr.
  apply lands_relative.
  - apply Forall_replicate. by split.
  - destruct k; [lia|done].
  - by apply (walk_dotdot_reached _ _ _ _ Hr eq_refl _ segs).
Qed.

Lemma dotdot_to_root_witness : lands demo (joined (replicate 3 "..")) (tree demo).
Proof.
  apply (dotdot_to_root demo ["quz"; "foo"] 3).
  - eexists. apply trace_run. simpl. repeat split; constructor.
  - apply (reached_child (heap demo) 0 2
             (BDir {| dir_parent := Some 1; dir_name := "foo"; dir_children := [3] |})
             1 ["quz"]); [reflexivity..|].
    apply (reached_child (heap demo) 0 1
             (BDir {| dir_parent := Some 0; dir_name := "quz"; dir_children := [2] |})
             0 []); [reflexivity..|].
    constructor.
  - simpl. lia.
  - lia.
Defined.

(** ** Listing: rows, termination, cycles *)

Lemma flat_rows_map h cs rows :
  flat_rows h cs = Some rows ->
  exists blobs, Forall2 (fun c b => h !! c = Some b) cs blobs
                /\ rows = map flat_row blobs.
Proof.
  revert rows. induction cs as [|c cs IH]; intros rows; simpl.
  - intros [= <-]. exists []. by split; [constructor|].
  - destruct (h !! c) as [b|] eqn:Hc; [|done].
    destruct (flat_rows h cs) as [rs|]; [|done]. simpl. intros [= <-].
    destruct (IH rs eq_refl) as (blobs & HF & ->).
    exists (b :: blobs). split; [by constructor|done].
Qed.

(** X14. In every run [List(false)] returns, and after the header it
    writes exactly one row per child of [wd], in the order of the children:
    [file], the size in kb and the name for a File, [dir], [-] and the name
    for a Directory. *)
Theorem List_flat (f : filesystem) (fuel : nat) :
  reachable f ->
  exists d blobs,
    heap f !! wd f = Some (BDir d)
    /\ Forall2 (fun c b => heap f !! c = Some b) (Children d) blobs
    /\ List (S fuel) f false = (f, Some (List_header :: map flat_row blobs)).
Proof.
  intros [ops Ht]. pose proof (trace_tree_inv ops f Ht) as Hinv.
  destruct (inv_wd f Hinv) as [d Hd].
  destruct (flat_rows_total (heap f) (Children d)) as [rows Hrows];
    [by apply (inv_children f Hinv (wd f))|].
  destruct (flat_rows_map _ _ _ Hrows) as (blobs & HF & ->).
  exists d, blobs. split; [done|]. split; [done|].
  unfold List. rewrite (printChilds_flat fuel _ _ d) by (by apply as_Directory_Some).
  by rewrite Hrows.
Qed.

Lemma List_flat_witness :
  exists d blobs,
    heap three_a !! wd three_a = Some (BDir d)
    /\ Forall2 (fun c b => heap three_a !! c = Some b) (Children d) blobs
    /\ List 1 three_a false = (three_a, Some (List_header :: map flat_row blobs)).
Proof.
  apply (List_flat three_a 0).
  eexists. apply trace_run. simpl. repeat split; constructor.
Defined.

(** If the listing of one child Directory does not come back, neither does
    the recursive listing of the directory. *)
Lemma printChilds_stuck k h dir d c prefix :
  as_Directory h dir = Some d -> c ∈ Children d ->
  (exists v, h !! c = Some (BDir v)) ->
  (forall p, printChilds k h c true p = None) ->
  printChilds (S k) h dir true prefix = None.
Proof.
  intros Hd Hin [v Hv] Hsub. simpl. rewrite Hd.
  revert Hin. generalize (Children d) as cs.
  induction cs as [|x cs IH]; [by intros ?%elem_of_nil|].
  intros Hin. simpl. destruct (decide (x = c)) as [->|Hne].
  - rewrite Hv. by rewrite Hsub.
  - apply elem_of_cons in Hin as [?|Hin]; [congruence|].
    rewrite (IH Hin). destruct (h !! x) as [[y|y]|]; [done| |done].
    by destruct (printChilds k h x true _).
Qed.

(** X15. A directory created with the working directory among its initial
    children closes a cycle, and from then on [List(true)] in that working
    directory never returns, whatever the number of nested calls allowed;
    every reference in that state is live. *)
Theorem List_recursive_cycle (f : filesystem) (name : string) (fuel : nat) :
  reachable f ->
  reachable (fst (CreateDirectory f name [wd f]))
  /\ snd (List fuel (fst (CreateDirectory f name [wd f])) true) = None.
Proof.
  intros [ops Ht]. pose proof (trace_tree_inv ops f Ht) as Hinv.
  destruct (inv_wd f Hinv) as [d Hd]. split.
  { exists (ops ++ [OpCreateDirectory name [wd f]]).
    apply (trace_call ops f (OpCreateDirectory name [wd f]) Ht).
    simpl. constructor; [|constructor]. by apply lookup_lt_Some in Hd. }
  rewrite (CreateDirectory_grown f name [wd f] d Hd). unfold List. simpl.
  set (nb := BDir {| dir_parent := Some (wd f); dir_name := name;
                     dir_children := [wd f] |}).
  set (h' := grown (heap f) (wd f) d nb).
  pose proof (grown_lookup_wd (heap f) (wd f) d nb Hd) as Hw'.
  pose proof (grown_lookup_new (heap f) (wd f) d nb Hd) as Hn'.
  fold h' in Hw', Hn'.
  assert (forall k p, printChilds k h' (wd f) true p = None
                      /\ printChilds k h' (length (heap f)) true p = None) as Hloop.
  { induction k as [|k IH]; intros p; [done|]. split.
    - eapply (printChilds_stuck k h' (wd f) _ (length (heap f)) p).
      + apply as_Directory_Some. exact Hw'.
      + unfold Children. simpl. apply elem_of_app. right. by left.
      + eexists. exact Hn'.
      + intros q. apply IH.
    - eapply (printChilds_stuck k h' (length (heap f)) _ (wd f) p).
      + apply as_Directory_Some. exact Hn'.
      + unfold Children. simpl. by left.
      + eexists. exact Hw'.
      + intros q. apply IH. }
  by rewrite (proj1 (Hloop fuel "")).
Qed.

Lemma List_recursive_cycle_witness :
  snd (List 5 (fst (CreateDirectory NewFilesystem "a" [wd NewFilesystem])) true) = None.
Proof.
  apply (List_recursive_cycle NewFilesystem "a" 5).
  exists []. constructor.
Defined.

(** In a run without initial children a child has a larger address than
    the directory that lists it. *)
Lemma child_above f a d c :
  tree_inv f -> owned_inv f -> heap f !! a = Some (BDir d) -> c ∈ dir_children d ->
  a < c.
Proof.
  intros Hinv Ho Ha Hin. destruct (Ho a d Ha) as [_ Hch].
  destruct (Hch c Hin) as (b & Hb & Hp).
  destruct (decide (c = 0)) as [->|NE].
  - destruct (inv_root f Hinv) as [cs Hr]. rewrite Hr in Hb. by inversion Hb; subst b.
  - destruct (inv_parent f Hinv c b Hb NE) as (p & pd & Hp' & Hlt & _). congruence.
Qed.

Lemma printChilds_returns f recursive :
  tree_inv f -> owned_inv f ->
  forall k a prefix,
    (exists d, heap f !! a = Some (BDir d)) ->
    length (heap f) - a <= k ->
    exists rows, printChilds k (heap f) a recursive prefix = Some rows.
Proof.
  intros Hinv Ho. induction k as [|k IH]; intros a prefix [d Hd] Hk.
  { apply lookup_lt_Some in Hd. lia. }
  simpl. rewrite (proj2 (as_Directory_Some _ _ _) Hd).
  pose proof (inv_children f Hinv a d Hd) as Hlive.
  assert (Forall (fun c => a < c) (Children d)) as Habove.
  { apply Forall_forall. intros c Hc. by apply (child_above f a d). }
  revert Hlive Habove. unfold Children. generalize (dir_children d) as cs.
  induction cs as [|c cs IHcs]; intros Hlive Habove; [by exists []|].
  inversion Hlive as [|? ? Hc Hlive']; subst.
  inversion Habove as [|? ? Hac Habove']; subst.
  destruct (IHcs Hlive' Habove') as [later Hlater]. simpl.
  destruct (lookup_lt_is_Some_2 _ _ Hc) as [b Hb]. rewrite Hb, Hlater.
  destruct b as [x|x]; simpl; [eauto|].
  destruct recursive; [|eauto].
  destruct (IH c (if decide (prefix <> "") then (prefix +:+ "/") +:+ dir_name x
                  else dir_name x)) as [inner ->]; [eauto|lia|eauto].
Qed.

(** X16. In a run whose [CreateDirectory] calls pass no initial children,
    [List] returns, recursive or not, once the number of nested calls
    allowed reaches the number of objects. *)
Theorem List_returns (ops : list op) (f : filesystem) (recursive : bool) (fuel : nat) :
  trace ops f -> Forall childless ops -> length (heap f) <= fuel ->
  exists rows, List fuel f recursive = (f, Some (List_header :: rows)).
Proof.
  intros Ht Hc Hfuel. pose proof (trace_tree_inv ops f Ht) as Hinv.
  pose proof (trace_owned_inv ops f Ht Hc) as Ho.
  destruct (printChilds_returns f recursive Hinv Ho fuel (wd f) "" (inv_wd f Hinv))
    as [rows Hrows]; [lia|].
  exists rows. unfold List. by rewrite Hrows.
Qed.

Lemma List_returns_witness :
  exists rows, List 4 demo true = (demo, Some (List_header :: rows)).
Proof.
  apply (List_returns
           [OpCreateDirectory "quz" []; OpChangeDirectory "quz";
            OpCreateDirectory "foo" []; OpChangeDirectory "foo";
            OpCreateFile "test" []] demo true 4).
  - apply trace_run. simpl. repeat split; constructor.
  - repeat constructor.
  - simpl. lia.
Defined.

(** ** The dispatcher and the loop of [main] *)

Lemma ending_of_not_Stuck r : ending_of r <> Stuck.
Proof. by destruct r. Qed.

Lemma dispatched_childless ops : Forall dispatched ops -> Forall childless ops.
Proof.
  induction 1 as [|o ops Ho _ IH]; constructor; [|done]. by destruct o.
Qed.

Lemma ExecuteCommand_state fuel fs command args :
  (ExecuteCommand fuel fs command args).1.1 = fs
  \/ exists o, dispatched o /\ admissible fs o
               /\ (ExecuteCommand fuel fs command args).1.1 = exec fs o.
Proof.
  unfold ExecuteCommand. repeat case_decide; try (by left).
  - destruct args as [|name args]; [by left|]. right.
    exists (OpCreateFile name []). simpl. by destruct (CreateFile fs name []).
  - destruct args as [|name args]; [by left|]. right.
    exists (OpCreateDirectory name []). simpl. by destruct (CreateDirectory fs name []).
  - left. unfold List. by destruct (printChilds _ _ _ _ _).
  - left. unfold CurrentDirectory. by destruct (CurrentDirectory_loop _ _ _ _).
  - destruct args as [|path args]; [by left|]. right.
    exists (OpChangeDirectory path). simpl. by destruct (ChangeDirectory fs path).
Qed.

Lemma exec_length f o : length (heap (exec f o)) <= S (length (heap f)).
Proof.
  assert (forall nb, match Add (heap f ++ [nb]) (wd f) (length (heap f)) with
                     | Some h' => length h' = S (length (heap f))
                     | None => True
                     end) as HAdd.
  { intros nb. unfold Add. destruct (_ !! wd f) as [[x|x]|]; try done.
    rewrite length_insert, length_app. simpl. lia. }
  destruct o as [name content|name children|path| |]; simpl; try lia.
  - unfold CreateFile, NewFile, alloc.
    match goal with |- context [Add (_ ++ [?nb])] => specialize (HAdd nb) end.
    destruct (Add _ _ _); simpl; lia.
  - unfold CreateDirectory, NewDirectory, alloc.
    match goal with |- context [Add (_ ++ [?nb])] => specialize (HAdd nb) end.
    destruct (Add _ _ _); simpl; lia.
  - rewrite (ChangeDirectory_heap f path). lia.
Qed.

Lemma ExecuteCommand_not_Stuck ops fuel fs command args :
  trace ops fs -> Forall childless ops -> length (heap fs) <= fuel ->
  (ExecuteCommand fuel fs command args).2 <> Stuck.
Proof.
  intros Ht Hc Hfuel. unfold ExecuteCommand. repeat case_decide; try done.
  - destruct args; [done|]. destruct (CreateFile fs _ _). apply ending_of_not_Stuck.
  - destruct args; [done|]. destruct (CreateDirectory fs _ _). apply ending_of_not_Stuck.
  - destruct (printChilds_returns fs (has_recursive_option args)
                (trace_tree_inv ops fs Ht) (trace_owned_inv ops fs Ht Hc)
                fuel (wd fs) "" (inv_wd fs (trace_tree_inv ops fs Ht))) as [rows Hrows];
      [lia|].
    unfold List. by rewrite Hrows.
  - destruct (CurrentDirectory_prints fs (ex_intro _ ops Ht)) as (segs & _ & Hp).
    by rewrite (Hp fuel Hfuel).
  - destruct args; [done|]. destruct (ChangeDirectory fs _). apply ending_of_not_Stuck.
Qed.

Lemma main_turn_state fuel fs text :
  (main_turn fuel fs text).1.1 = fs
  \/ exists o, dispatched o /\ admissible fs o /\ (main_turn fuel fs text).1.1 = exec fs o.
Proof.
  unfold main_turn. case_decide; [|by left].
  destruct (strings.Split text " ") as [|command args]; [by left|].
  pose proof (ExecuteCommand_state fuel fs command args) as Hstate.
  destruct (ExecuteCommand fuel fs command args) as [[fs' out] e].
  by destruct e as [[err|]| | |].
Qed.

Lemma main_turn_not_Stuck ops fuel fs text :
  trace ops fs -> Forall childless ops -> length (heap fs) <= fuel ->
  (main_turn fuel fs text).2 <> Stuck.
Proof.
  intros Ht Hc Hfuel. unfold main_turn. case_decide; [|done].
  destruct (strings.Split text " ") as [|command args]; [done|].
  pose proof (ExecuteCommand_not_Stuck ops fuel fs command args Ht Hc Hfuel) as Hns.
  destruct (ExecuteCommand fuel fs command args) as [[fs' out] e].
  by destruct e as [[err|]| | |].
Qed.

Lemma main_turn_trace ops fuel fs text :
  trace ops fs -> Forall dispatched ops ->
  exists ops', trace ops' (main_turn fuel fs text).1.1 /\ Forall dispatched ops'
               /\ length (heap (main_turn fuel fs text).1.1) <= S (length (heap fs)).
Proof.
  intros Ht Hc.
  destruct (main_turn_state fuel fs text) as [->|(o & Ho & Ha & ->)].
  - exists ops. repeat split; try done. lia.
  - exists (ops ++ [o]). split; [by constructor|]. split.
    + apply Forall_app. split; [done|]. by constructor.
    + apply exec_length.
Qed.

Lemma main_loop_trace fuel texts : forall ops fs,
  trace ops fs -> Forall dispatched ops ->
  exists ops', trace ops' (main_loop fuel fs texts).1.1 /\ Forall dispatched ops'
               /\ length (heap (main_loop fuel fs texts).1.1)
                  <= length texts + length (heap fs).
Proof.
  induction texts as [|text texts IH]; intros ops fs Ht Hc.
  { exists ops. repeat split; try done; simpl; lia. }
  destruct (main_turn_trace ops fuel fs text Ht Hc) as (ops1 & Ht1 & Hc1 & Hlen1).
  simpl. destruct (main_turn fuel fs text) as [[fs1 out1] e1]. simpl in *.
  destruct e1 as [err| | |]; try (exists ops1; repeat split; try done; simpl; lia).
  destruct (IH ops1 fs1 Ht1 Hc1) as (ops2 & Ht2 & Hc2 & Hlen2).
  destruct (main_loop fuel fs1 texts) as [[fs2 out2] e2]. simpl in *.
  exists ops2. repeat split; try done. lia.
Qed.

(** X17. A line that is the bare word [touch], [mkdir] or [cd] makes the
    program panic once the prompt is printed: [args[0]] is read from an
    empty slice. *)
Theorem bare_command_crashes (fuel : nat) (fs : filesystem) (command : string) :
  command = "touch" \/ command = "mkdir" \/ command = "cd" ->
  ExecuteCommand fuel fs command [] = (fs, [], Crashed)
  /\ main_turn fuel fs command = (fs, [Stdout "> "], Crashed)
  /\ forall texts, main_loop fuel fs (command :: texts) = (fs, [Stdout "> "], Crashed).
Proof.
  intros [-> | [-> | ->]]; repeat split; reflexivity.
Qed.

Lemma bare_command_crashes_witness :
  main_turn 1 NewFilesystem "mkdir" = (NewFilesystem, [Stdout "> "], Crashed).
Proof.
  assert ("mkdir" = "touch" \/ "mkdir" = "mkdir" \/ "mkdir" = "cd") as H
    by (right; left; reflexivity).
  exact (proj1 (proj2 (bare_command_crashes 1 NewFilesystem "mkdir" H))).
Defined.

(** X18. Whatever lines the program reads, the state it is in was reached
    from [NewFilesystem] by filesystem calls that pass no initial children,
    and it holds at most one object per line besides the root. *)
Theorem main_loop_reachable (fuel : nat) (texts : list string) :
  exists ops,
    trace ops (main_loop fuel NewFilesystem texts).1.1
    /\ Forall childless ops
    /\ length (heap (main_loop fuel NewFilesystem texts).1.1) <= S (length texts).
Proof.
  destruct (main_loop_trace fuel texts [] NewFilesystem) as (ops & Ht & Hc & Hlen);
    [constructor|constructor|].
  exists ops. split; [done|]. split; [by apply dispatched_childless|].
  simpl in Hlen. lia.
Qed.

Lemma main_loop_not_Stuck fuel texts : forall ops fs,
  trace ops fs -> Forall dispatched ops ->
  length texts + length (heap fs) <= fuel ->
  (main_loop fuel fs texts).2 <> Stuck.
Proof.
  induction texts as [|text texts IH]; intros ops fs Ht Hc Hfuel; [done|].
  simpl in Hfuel.
  pose proof (main_turn_not_Stuck ops fuel fs text Ht (dispatched_childless ops Hc)) as Hns.
  destruct (main_turn_trace ops fuel fs text Ht Hc) as (ops1 & Ht1 & Hc1 & Hlen1).
  simpl. destruct (main_turn fuel fs text) as [[fs1 out1] e1]. simpl in *.
  destruct e1 as [err| | |]; try done; [|apply Hns; lia].
  pose proof (IH ops1 fs1 Ht1 Hc1) as H.
  destruct (main_loop fuel fs1 texts) as [[fs2 out2] e2]. simpl in *.
  apply H. lia.
Qed.

(** X19. Every command of the program comes back: over any lines, with
    more nested calls allowed than there are lines, the loop of [main]
    never hangs in [pwd] or [ls], recursive or not. *)
Theorem main_loop_never_stuck (fuel : nat) (texts : list string) :
  length texts < fuel ->
  (main_loop fuel NewFilesystem texts).2 <> Stuck.
Proof.
  intros Hfuel. apply (main_loop_not_Stuck fuel texts [] NewFilesystem).
  - constructor.
  - constructor.
  - simpl. lia.
Qed.

Lemma main_loop_never_stuck_witness :
  (main_loop 4 NewFilesystem ["mkdir a"; "ls -r"; "pwd"]).2 <> Stuck.
Proof.
  assert (length ["mkdir a"; "ls -r"; "pwd"] < 4) as H by (simpl; lia).
  exact (main_loop_never_stuck 4 ["mkdir a"; "ls -r"; "pwd"] H).
Defined.

Lemma Split_not_nil s c : strings.Split s c <> [].
Proof.
  destruct s as [|a s]; [done|]. simpl.
  destruct (Ascii.eqb a c); [done|]. by destruct (strings.Split s c).
Qed.

Lemma Split_word_arg word arg :
  contains_byte word " " = false -> contains_byte arg " " = false ->
  strings.Split (word +:+ " " +:+ arg) " " = [word; arg].
Proof.
  intros Hw Ha. change (" " +:+ arg) with (String " " arg).
  by rewrite (Split_app " " word arg Hw), (Split_free " " arg Ha).
Qed.

Lemma ExecuteCommand_Crashed ops fuel fs command args :
  trace ops fs ->
  (ExecuteCommand fuel fs command args).2 = Crashed ->
  args = [] /\ (command = "touch" \/ command = "mkdir" \/ command = "cd").
Proof.
  intros Ht. pose proof (trace_tree_inv ops fs Ht) as Hinv.
  destruct (inv_wd fs Hinv) as [d Hd].
  unfold ExecuteCommand. repeat case_decide; try done.
  - destruct args as [|name args]; [auto|].
    by rewrite (CreateFile_grown fs name [] d Hd).
  - destruct args as [|name args]; [auto|].
    by rewrite (CreateDirectory_grown fs name [] d Hd).
  - unfold List. by destruct (printChilds _ _ _ _ _).
  - unfold CurrentDirectory. by destruct (CurrentDirectory_loop _ _ _ _).
  - destruct args as [|path args]; [auto|].
    pose proof (ChangeDirectory_no_panic fs path Hinv) as Hnp.
    destruct (ChangeDirectory fs path) as [fs' r]. simpl in *. by destruct r.
Qed.

Lemma main_turn_Crashed ops fuel fs text :
  trace ops fs ->
  (main_turn fuel fs text).2 = Crashed ->
  text = "touch" \/ text = "mkdir" \/ text = "cd".
Proof.
  intros Ht. unfold main_turn. case_decide; [|done].
  destruct (strings.Split text " ") as [|command args] eqn:Hsplit.
  { by destruct (Split_not_nil text " "). }
  pose proof (ExecuteCommand_Crashed ops fuel fs command args Ht) as Hc.
  destruct (ExecuteCommand fuel fs command args) as [[fs' out] e].
  destruct e as [[err|]| | |]; try done. simpl in *.
  intros _. destruct (Hc eq_refl) as [-> Hcmd].
  assert (text = command) as ->; [|done].
  clear -Hsplit. revert command Hsplit.
  induction text as [|a text IH]; intros command; simpl.
  - by intros [= <-].
  - destruct (Ascii.eqb a " ").
    { intros [= _ E]. by destruct (Split_not_nil text " "). }
    destruct (strings.Split text " ") as [|piece [|? ?]] eqn:E.
    + by destruct (Split_not_nil text " ").
    + intros [= <-]. f_equal. by apply IH.
    + done.
Qed.

(** X20. The program panics only on a missing argument: if the loop of
    [main] ends in a panic, one of the lines read was the bare word
    [touch], [mkdir] or [cd]. *)
Theorem main_loop_crash_cause (fuel : nat) (texts : list string) :
  (main_loop fuel NewFilesystem texts).2 = Crashed ->
  exists text, text ∈ texts /\ (text = "touch" \/ text = "mkdir" \/ text = "cd").
Proof.
  assert (forall ops fs, trace ops fs -> Forall dispatched ops ->
            (main_loop fuel fs texts).2 = Crashed ->
            exists text, text ∈ texts
                         /\ (text = "touch" \/ text = "mkdir" \/ text = "cd")) as Hgen.
  { induction texts as [|text texts IH]; intros ops fs Ht Hc; [done|].
    pose proof (main_turn_Crashed ops fuel fs text Ht) as Hcr.
    destruct (main_turn_trace ops fuel fs text Ht Hc) as (ops1 & Ht1 & Hc1 & _).
    simpl. destruct (main_turn fuel fs text) as [[fs1 out1] e1]. simpl in *.
    destruct e1 as [err| | |]; try done.
    - pose proof (IH ops1 fs1 Ht1 Hc1) as Hrest.
      destruct (main_loop fuel fs1 texts) as [[fs2 out2] e2]. simpl in *.
      intros E. destruct (Hrest E) as (t & Hin & Ht'). exists t. split; [by right|done].
    - intros _. exists text. split; [by left|by apply Hcr]. }
  apply (Hgen [] NewFilesystem); constructor.
Qed.

Lemma main_loop_crash_cause_witness :
  exists text, text ∈ ["mkdir a"; "cd"]
               /\ (text = "touch" \/ text = "mkdir" \/ text = "cd").
Proof.
  apply (main_loop_crash_cause 3 ["mkdir a"; "cd"]). reflexivity.
Defined.

(** X21. A line made of [mkdir], [touch] or [cd], one space and a word
    without space runs [CreateDirectory] with no children, [CreateFile]
    with the empty content, or [ChangeDirectory] on that word, the empty
    word included; only a failed [cd] prints something, the error. *)
Theorem main_turn_commands (fuel : nat) (fs : filesystem) (arg : string) :
  reachable fs -> contains_byte arg " " = false ->
  main_turn fuel fs ("mkdir " +:+ arg)
  = (fst (CreateDirectory fs arg []), [Stdout "> "], Returned None)
  /\ main_turn fuel fs ("touch " +:+ arg)
     = (fst (CreateFile fs arg []), [Stdout "> "], Returned None)
  /\ main_turn fuel fs ("cd " +:+ arg)
     = (fst (ChangeDirectory fs arg),
        match snd (ChangeDirectory fs arg) with
        | Err msg => [Stdout "> "; Stdout (fmt.Println msg)]
        | _ => [Stdout "> "]
        end,
        Returned None).
Proof.
  intros [ops Ht] Harg. pose proof (trace_tree_inv ops fs Ht) as Hinv.
  destruct (inv_wd fs Hinv) as [d Hd].
  assert (forall word, contains_byte word " " = false -> word <> "" ->
            main_turn fuel fs (word +:+ " " +:+ arg)
            = match ExecuteCommand fuel fs word [arg] with
              | (fs', out, Returned (Some err)) =>
                  (fs', Stdout "> " :: out ++ [Stdout (fmt.Println err)], Returned None)
              | (fs', out, e) => (fs', Stdout "> " :: out, e)
              end) as Hturn.
  { intros word Hw Hne. unfold main_turn.
    rewrite (Split_word_arg word arg Hw Harg). rewrite decide_True; [done|].
    destruct word; [done|]. rewrite app_cons. simpl. lia. }
  split; [|split].
  - change ("mkdir " +:+ arg) with ("mkdir" +:+ " " +:+ arg).
    rewrite Hturn by done. unfold ExecuteCommand.
    rewrite decide_False by done. rewrite decide_True by done.
    by rewrite (CreateDirectory_grown fs arg [] d Hd).
  - change ("touch " +:+ arg) with ("touch" +:+ " " +:+ arg).
    rewrite Hturn by done. unfold ExecuteCommand. rewrite decide_True by done.
    by rewrite (CreateFile_grown fs arg [] d Hd).
  - change ("cd " +:+ arg) with ("cd" +:+ " " +:+ arg).
    rewrite Hturn by done. unfold ExecuteCommand.
    do 4 (rewrite decide_False by done). rewrite decide_True by done.
    pose proof (ChangeDirectory_no_panic fs arg Hinv) as Hnp.
    destruct (ChangeDirectory fs arg) as [fs' r]. simpl in *. by destruct r.
Qed.

Lemma main_turn_commands_witness :
  main_turn 1 NewFilesystem ("mkdir " +:+ "")
  = (fst (CreateDirectory NewFilesystem "" []), [Stdout "> "], Returned None).
Proof.
  assert (reachable NewFilesystem) as Hr by (exists []; constructor).
  exact (proj1 (main_turn_commands 1 NewFilesystem "" Hr eq_refl)).
Defined.

(** ** Files of the program are empty *)

Lemma files_empty_exec f o :
  tree_inv f -> files_empty f -> dispatched o -> files_empty (exec f o).
Proof.
  intros Hinv He Ho. destruct (inv_wd f Hinv) as [d Hd].
  assert (forall nb, (forall x, nb = BFile x -> file_content x = []) ->
            files_empty {| heap := grown (heap f) (wd f) d nb; tree := tree f; wd := wd f |})
    as Hgrow.
  { intros nb Hnb a x Hx. simpl in Hx.
    destruct (grown_lookup_cases _ _ _ _ _ _ Hd Hx) as [[_ E]|(b0 & Hb0 & E)].
    - by apply Hnb.
    - destruct b0 as [y|y]; [|done]. inversion E; subst y. by apply (He a). }
  destruct o as [name content|name children|path| |]; simpl; try done.
  - rewrite (CreateFile_grown f name content d Hd). apply Hgrow.
    simpl in Ho. by intros x [= <-].
  - rewrite (CreateDirectory_grown f name children d Hd). by apply Hgrow.
  - intros a x. rewrite (ChangeDirectory_heap f path). apply He.
Qed.

Lemma trace_files_empty ops f : trace ops f -> Forall dispatched ops -> files_empty f.
Proof.
  induction 1 as [|ops f o Ht IH Ha].
  - intros _ [|[|a]] x Hx; simpl in *; done.
  - intros [Hops Ho]%Forall_app. apply files_empty_exec.
    + by apply trace_tree_inv with ops.
    + by apply IH.
    + by inversion Ho.
Qed.

(** X23. The program only makes empty files: whatever lines it has read,
    every File in its state has no content and size 0, and its row in a
    listing of its directory shows [0kb]. *)
Theorem main_loop_files_empty (fuel : nat) (texts : list string) (a : addr) (x : file) :
  heap (main_loop fuel NewFilesystem texts).1.1 !! a = Some (BFile x) ->
  Content x = [] /\ Size x = 0%Z
  /\ flat_row (BFile x) = fmt.Fprintf_row "file" "0kb" (file_name x).
Proof.
  intros Hx.
  destruct (main_loop_trace fuel texts [] NewFilesystem) as (ops & Ht & Hc & _);
    [constructor|constructor|].
  pose proof (trace_files_empty ops _ Ht Hc a x Hx) as He.
  unfold Content, flat_row, Size. by rewrite He.
Qed.

Lemma main_loop_files_empty_witness :
  Content {| file_parent := Some 0; file_name := "t"; file_content := []; file_size := 0 |}
  = []
  /\ Size {| file_parent := Some 0; file_name := "t"; file_content := []; file_size := 0 |}
     = 0%Z
  /\ flat_row (BFile {| file_parent := Some 0; file_name := "t"; file_content := [];
                        file_size := 0 |})
     = fmt.Fprintf_row "file" "0kb" "t".
Proof.
  apply (main_loop_files_empty 1 ["touch t"] 1). reflexivity.
Defined.

(** ** States of the program: ownership, creation, navigation *)

Lemma program_state_trace f :
  program_state f -> exists ops, trace ops f /\ Forall dispatched ops.
Proof.
  intros (fuel & texts & <-).
  destruct (main_loop_trace fuel texts [] NewFilesystem) as (ops & Ht & Hc & _);
    [constructor|constructor|].
  by exists ops.
Qed.

Lemma program_state_inv f :
  program_state f -> tree_inv f /\ listed_inv f /\ owned_inv f.
Proof.
  intros (ops & Ht & Hc)%program_state_trace. split; [|split].
  - by apply trace_tree_inv with ops.
  - by apply trace_listed_inv with ops.
  - apply trace_owned_inv with ops; [done|]. by apply dispatched_childless.
Qed.

(** The README session and the three objects named [a], as typed. *)
Lemma program_state_demo : program_state demo.
Proof.
  by exists 1, ["mkdir quz"; "cd quz"; "mkdir foo"; "cd foo"; "touch test"].
Qed.

Lemma program_state_three_a : program_state three_a.
Proof. by exists 1, ["touch a"; "mkdir a"; "mkdir a"]. Qed.

(** X1. In every state of the program, an object that has a parent is
    listed among the children of that parent, which is a Directory. *)
Theorem parent_lists_child (f : filesystem) (c p : addr) (b : Blob) :
  program_state f -> heap f !! c = Some b -> Parent b = Some p ->
  exists d, heap f !! p = Some (BDir d) /\ c ∈ Children d.
Proof. intros (_ & Hl & _)%program_state_inv. apply Hl. Qed.

Lemma parent_lists_child_witness :
  exists d, heap demo !! 2 = Some (BDir d) /\ 3 ∈ Children d.
Proof.
  apply (parent_lists_child demo 3 2
           (BFile {| file_parent := Some 2; file_name := "test";
                     file_content := []; file_size := 0 |}));
    [exact program_state_demo|reflexivity..].
Defined.

(** X2. In every state of the program, a directory lists each child once,
    every child names that directory as its parent, and so no object is
    listed by two directories. *)
Theorem children_owned (f : filesystem) (a : addr) (d : directory) :
  program_state f -> heap f !! a = Some (BDir d) ->
  NoDup (Children d)
  /\ (forall c, c ∈ Children d -> exists b, heap f !! c = Some b /\ Parent b = Some a)
  /\ (forall a' d' c, heap f !! a' = Some (BDir d') ->
        c ∈ Children d -> c ∈ Children d' -> a' = a).
Proof.
  intros (_ & _ & Ho)%program_state_inv Ha.
  destruct (Ho a d Ha) as [Hnd Hch]. split; [done|]. split; [done|].
  intros a' d' c Ha' Hin Hin'.
  destruct (Hch c Hin) as (b & Hb & Hp).
  destruct (Ho a' d' Ha') as [_ Hch']. destruct (Hch' c Hin') as (b' & Hb' & Hp').
  congruence.
Qed.

Lemma children_owned_witness :
  NoDup [1; 2; 3].
Proof.
  apply (children_owned three_a 0
           {| dir_parent := None; dir_name := ""; dir_children := [1; 2; 3] |});
    [exact program_state_three_a|reflexivity].
Defined.

(** X3. Called in a state of the program, [CreateDirectory] returns nil
    and allocates one object: a Directory with the given name and children
    whose parent is [wd].  It appends that object to the children of [wd],
    where it did not occur before; [wd], [tree] and every other object stay
    as they were. *)
Theorem CreateDirectory_effect (f : filesystem) (name : string) (children : list addr) :
  program_state f ->
  exists d,
    heap f !! wd f = Some (BDir d)
    /\ snd (CreateDirectory f name children) = Ok tt
    /\ wd (fst (CreateDirectory f name children)) = wd f
    /\ tree (fst (CreateDirectory f name children)) = tree f
    /\ length (heap (fst (CreateDirectory f name children))) = S (length (heap f))
    /\ heap (fst (CreateDirectory f name children)) !! length (heap f)
       = Some (BDir {| dir_parent := Some (wd f); dir_name := name;
                       dir_children := children |})
    /\ as_Directory (heap (fst (CreateDirectory f name children))) (wd f)
       = Some {| dir_parent := dir_parent d; dir_name := dir_name d;
                 dir_children := dir_children d ++ [length (heap f)] |}
    /\ (length (heap f) ∉ dir_children d)
    /\ (forall a b, a <> wd f -> heap f !! a = Some b ->
          heap (fst (CreateDirectory f name children)) !! a = Some b).
Proof.
  intros (Hinv & _)%program_state_inv.
  destruct (inv_wd f Hinv) as [d Hd]. exists d.
  rewrite (CreateDirectory_grown f name children d Hd). simpl.
  split; [done|]. split; [done|]. split; [done|]. split; [done|].
  by apply creation_effect.
Qed.

Lemma CreateDirectory_effect_witness :
  exists d,
    heap demo !! wd demo = Some (BDir d)
    /\ snd (CreateDirectory demo "bar" []) = Ok tt
    /\ wd (fst (CreateDirectory demo "bar" [])) = wd demo
    /\ tree (fst (CreateDirectory demo "bar" [])) = tree demo
    /\ length (heap (fst (CreateDirectory demo "bar" []))) = S (length (heap demo))
    /\ heap (fst (CreateDirectory demo "bar" [])) !! length (heap demo)
       = Some (BDir {| dir_parent := Some (wd demo); dir_name := "bar";
                       dir_children := [] |})
    /\ as_Directory (heap (fst (CreateDirectory demo "bar" []))) (wd demo)
       = Some {| dir_parent := dir_parent d; dir_name := dir_name d;
                 dir_children := dir_children d ++ [length (heap demo)] |}
    /\ (length (heap demo) ∉ dir_children d)
    /\ (forall a b, a <> wd demo -> heap demo !! a = Some b ->
          heap (fst (CreateDirectory demo "bar" [])) !! a = Some b).
Proof.
  apply (CreateDirectory_effect demo "bar" []). exact program_state_demo.
Defined.

(** X4. Called in a state of the program, [CreateFile] returns nil and
    allocates one File with the given name and content, of size
    [len(content)], whose parent is [wd]; it appends it to the children of
    [wd] and leaves [wd], [tree] and every other object as they were. *)
Theorem CreateFile_effect (f : filesystem) (name : string) (content : list byte) :
  program_state f ->
  exists d x,
    heap f !! wd f = Some (BDir d)
    /\ snd (CreateFile f name content) = Ok tt
    /\ wd (fst (CreateFile f name content)) = wd f
    /\ tree (fst (CreateFile f name content)) = tree f
    /\ length (heap (fst (CreateFile f name content))) = S (length (heap f))
    /\ heap (fst (CreateFile f name content)) !! length (heap f) = Some (BFile x)
    /\ Parent (BFile x) = Some (wd f) /\ Name (BFile x) = name
    /\ Content x = content /\ Size x = Z.of_nat (length content)
    /\ as_Directory (heap (fst (CreateFile f name content))) (wd f)
       = Some {| dir_parent := dir_parent d; dir_name := dir_name d;
                 dir_children := dir_children d ++ [length (heap f)] |}
    /\ (length (heap f) ∉ dir_children d)
    /\ (forall a b, a <> wd f -> heap f !! a = Some b ->
          heap (fst (CreateFile f name content)) !! a = Some b).
Proof.
  intros (Hinv & _)%program_state_inv.
  destruct (inv_wd f Hinv) as [d Hd]. exists d. eexists.
  rewrite (CreateFile_grown f name content d Hd). simpl.
  split; [done|]. split; [done|]. split; [done|]. split; [done|].
  destruct (creation_effect f d
              (BFile {| file_parent := Some (wd f); file_name := name;
                        file_content := content; file_size := 0 |}) Hinv Hd)
    as (H1 & H2 & H3 & H4 & H5).
  split; [done|]. split; [exact H2|]. by repeat split.
Qed.

Lemma CreateFile_effect_witness :
  exists d x,
    heap demo !! wd demo = Some (BDir d)
    /\ snd (CreateFile demo "t" [x00]) = Ok tt
    /\ wd (fst (CreateFile demo "t" [x00])) = wd demo
    /\ tree (fst (CreateFile demo "t" [x00])) = tree demo
    /\ length (heap (fst (CreateFile demo "t" [x00]))) = S (length (heap demo))
    /\ heap (fst (CreateFile demo "t" [x00])) !! length (heap demo) = Some (BFile x)
    /\ Parent (BFile x) = Some (wd demo) /\ Name (BFile x) = "t"
    /\ Content x = [x00] /\ Size x = Z.of_nat (length [x00])
    /\ as_Directory (heap (fst (CreateFile demo "t" [x00]))) (wd demo)
       = Some {| dir_parent := dir_parent d; dir_name := dir_name d;
                 dir_children := dir_children d ++ [length (heap demo)] |}
    /\ (length (heap demo) ∉ dir_children d)
    /\ (forall a b, a <> wd demo -> heap demo !! a = Some b ->
          heap (fst (CreateFile demo "t" [x00])) !! a = Some b).
Proof.
  apply (CreateFile_effect demo "t" [x00]). exact program_state_demo.
Defined.

(** X5. In a state of the program, creating never redirects a path that
    resolves: if [ChangeDirectory path] succeeds before a [CreateFile] or
    [CreateDirectory], it succeeds after it and arrives at the same
    directory (the new child is appended, so it is never the first match
    where there was one). *)
Theorem creation_keeps_navigation (f g : filesystem) (o : op) (path : string) :
  program_state f ->
  (exists name content, o = OpCreateFile name content)
  \/ (exists name children, o = OpCreateDirectory name children) ->
  ChangeDirectory f path = (g, Ok tt) ->
  ChangeDirectory (exec f o) path
  = ({| heap := heap (exec f o); tree := tree f; wd := wd g |}, Ok tt).
Proof.
  intros (Hinv & _)%program_state_inv Ho Hcd.
  destruct (inv_wd f Hinv) as [d Hd].
  assert (exists nb, exec f o = {| heap := grown (heap f) (wd f) d nb;
                                   tree := tree f; wd := wd f |}) as [nb ->].
  { destruct Ho as [(name & content & ->)|(name & children & ->)]; simpl.
    - rewrite (CreateFile_grown f name content d Hd). eauto.
    - rewrite (CreateDirectory_grown f name children d Hd). eauto. }
  revert Hcd. unfold ChangeDirectory. simpl.
  destruct (decide (path = "/")); [by intros [= <-]|].
  destruct (walk (heap f) _ _ _) as [c| |] eqn:Hw; [|done..]. intros [= <-]. simpl.
  by rewrite (walk_grown_Ok f d nb _ _ _ c Hinv Hd (start_is_dir f path Hinv) Hw).
Qed.

Lemma creation_keeps_navigation_witness :
  ChangeDirectory (exec demo (OpCreateDirectory "foo" [])) "/quz/foo"
  = ({| heap := heap (exec demo (OpCreateDirectory "foo" [])); tree := tree demo; wd := 2 |},
     Ok tt).
Proof.
  apply (creation_keeps_navigation demo
           {| heap := heap demo; tree := tree demo; wd := 2 |}
           (OpCreateDirectory "foo" []) "/quz/foo").
  - exact program_state_demo.
  - right. by exists "foo", [].
  - reflexivity.
Defined.

(** X6. Files are invisible to navigation: after [CreateFile] in a state
    of the program, [ChangeDirectory] with any path returns what it
    returned before and arrives where it arrived before. *)
Theorem CreateFile_navigation_frame (f : filesystem) (name : string) (content : list byte)
    (path : string) :
  program_state f ->
  snd (ChangeDirectory (fst (CreateFile f name content)) path)
  = snd (ChangeDirectory f path)
  /\ wd (fst (ChangeDirectory (fst (CreateFile f name content)) path))
     = wd (fst (ChangeDirectory f path)).
Proof.
  intros (Hinv & _)%program_state_inv.
  destruct (inv_wd f Hinv) as [d Hd].
  rewrite (CreateFile_grown f name content d Hd). unfold ChangeDirectory. simpl.
  destruct (decide (path = "/")); [done|].
  rewrite (walk_grown_file f d _ _ _ _ Hinv Hd (start_is_dir f path Hinv)).
  by destruct (walk (heap f) _ _ _).
Qed.

Lemma CreateFile_navigation_frame_witness :
  snd (ChangeDirectory (fst (CreateFile demo "quz" [])) "/quz")
  = snd (ChangeDirectory demo "/quz")
  /\ wd (fst (ChangeDirectory (fst (CreateFile demo "quz" [])) "/quz"))
     = wd (fst (ChangeDirectory demo "/quz")).
Proof.
  apply (CreateFile_navigation_frame demo "quz" [] "/quz"). exact program_state_demo.
Defined.

(** X11. In a state of the program, entering a directory by a plain name
    and then [..] comes back: [cd n] followed by [cd ..] restores the
    state. *)
Theorem cd_then_dotdot (f : filesystem) (n : string) (c : addr) :
  program_state f -> plain n -> lands f n c ->
  ChangeDirectory {| heap := heap f; tree := tree f; wd := c |} ".." = (f, Ok tt).
Proof.
  intros (_ & _ & Ho)%program_state_inv Hplain Hl.
  assert (Forall segment [n]) as Hseg by (constructor; [by apply plain_segment|constructor]).
  apply (lands_relative f [n] c Hseg) in Hl; [|done]. simpl in Hl.
  destruct (step_part (heap f) "" (wd f) n) as [m| |] eqn:Hstep; [|done..].
  inversion Hl; subst m.
  destruct (step_part_plain _ _ _ _ _ Hplain Hstep) as (d & v & Hd & Hin & Hm & Hn).
  destruct (Ho (wd f) d Hd) as [_ Hch]. destruct (Hch c Hin) as (b & Hb & Hp).
  rewrite ChangeDirectory_unfold by done. simpl.
  unfold step_part. simpl. rewrite Hb, Hp. by destruct f.
Qed.

Lemma cd_then_dotdot_witness :
  ChangeDirectory {| heap := heap three_a; tree := tree three_a; wd := 2 |} ".."
  = (three_a, Ok tt).
Proof.
  assert (plain "a") as Hp by (repeat split; discriminate || reflexivity).
  apply (cd_then_dotdot three_a "a" 2);
    [exact program_state_three_a|exact Hp|reflexivity].
Defined.

(** X13. In a state of the program, after a successful [cd] along plain
    segments [CurrentDirectory] prints the old path followed by those
    segments. *)
Theorem pwd_after_cd (f : filesystem) (here segs : list string) (c : addr) (fuel : nat) :
  program_state f ->
  reached (heap f) (tree f) (wd f) here ->
  Forall plain segs -> segs <> [] ->
  lands f (joined segs) c ->
  length here + length segs < fuel ->
  CurrentDirectory fuel {| heap := heap f; tree := tree f; wd := c |}
  = ({| heap := heap f; tree := tree f; wd := c |},
     Some (fmt.Println ("/" +:+ slashed (here ++ segs)))).
Proof.
  intros (Hinv & _ & Ho)%program_state_inv Hhere Hplain Hne Hl Hfuel.
  destruct (inv_root f Hinv) as [cs Hr]. rewrite <- (inv_tree f Hinv) in Hr.
  apply lands_relative in Hl; [|by eapply Forall_impl; [|apply plain_segment]|done].
  pose proof (walk_plain_reached f "" (tree f) Ho segs (wd f) here c Hplain Hhere Hl)
    as Hreach.
  unfold CurrentDirectory. simpl.
  rewrite (loop_reached _ _ _ Hr eq_refl _ _ Hreach) by (rewrite length_app; lia).
  simpl. by rewrite app_empty_l, app_empty_r.
Qed.

Lemma pwd_after_cd_witness :
  CurrentDirectory 3 {| heap := heap three_a; tree := tree three_a; wd := 2 |}
  = ({| heap := heap three_a; tree := tree three_a; wd := 2 |},
     Some (fmt.Println ("/" +:+ slashed ([] ++ ["a"])))).
Proof.
  assert (plain "a") as Hp by (repeat split; discriminate || reflexivity).
  assert (["a"] <> []) as Hne by discriminate.
  apply (pwd_after_cd three_a [] ["a"] 2 3).
  - exact program_state_three_a.
  - constructor.
  - by constructor.
  - exact Hne.
  - reflexivity.
  - simpl. lia.
Defined.

(** X22. No call removes or renames anything: for every call made in a
    state of the program, an object that exists before the call exists
    after it at the same place, with the same name and parent; a File is
    unchanged and a Directory keeps its children as a prefix of its
    children afterwards. *)
Theorem objects_persist (f : filesystem) (o : op) (a : addr) (b : Blob) :
  program_state f -> heap f !! a = Some b ->
  exists b', heap (exec f o) !! a = Some b'
    /\ Name b' = Name b /\ Parent b' = Parent b
    /\ match b, b' with
       | BFile x, BFile x' => x' = x
       | BDir d, BDir d' => dir_children d `prefix_of` dir_children d'
       | _, _ => False
       end.
Proof.
  intros (Hinv & _)%program_state_inv Hb.
  destruct (inv_wd f Hinv) as [d Hd].
  assert (forall nb, exists b',
            grown (heap f) (wd f) d nb !! a = Some b'
            /\ Name b' = Name b /\ Parent b' = Parent b
            /\ match b, b' with
               | BFile x, BFile x' => x' = x
               | BDir d, BDir d' => dir_children d `prefix_of` dir_children d'
               | _, _ => False
               end) as Hgrow.
  { intros nb. exists (bumped (heap f) (wd f) a b).
    split; [by apply grown_lookup_lt|].
    split; [apply bumped_Name|]. split; [apply bumped_Parent|].
    destruct b as [x|x]; simpl; [done|]. by eexists. }
  assert (exists b', heap f !! a = Some b'
            /\ Name b' = Name b /\ Parent b' = Parent b
            /\ match b, b' with
               | BFile x, BFile x' => x' = x
               | BDir d, BDir d' => dir_children d `prefix_of` dir_children d'
               | _, _ => False
               end) as Hsame.
  { exists b. repeat split; try done. by destruct b. }
  destruct o as [name content|name children|path| |]; simpl; try done.
  - rewrite (CreateFile_grown f name content d Hd). apply Hgrow.
  - rewrite (CreateDirectory_grown f name children d Hd). apply Hgrow.
  - by rewrite (ChangeDirectory_heap f path).
Qed.

Lemma objects_persist_witness :
  exists b', heap (exec demo (OpCreateDirectory "bar" [])) !! 2 = Some b'
    /\ Name b' = "foo" /\ Parent b' = Some 1
    /\ match b' with
       | BDir d' => [3] `prefix_of` dir_children d'
       | _ => False
       end.
Proof.
  apply (objects_persist demo (OpCreateDirectory "bar" []) 2
           (BDir {| dir_parent := Some 1; dir_name := "foo"; dir_children := [3] |}));
    [exact program_state_demo|reflexivity].
Defined.
